(** * Heading pipeline of the compass (src/App.js)

    A shallow embedding of the heading-processing core of [CompassApp]:
    the direction table, [getCardinalDirection], the body of the
    magnetometer listener (raw heading, shortest-arc delta, damped update,
    haptic trigger), the re-run of the effect that owns [lastDirection],
    and the values the render derives from the angle.

    Numbers.  JavaScript numbers are modelled as exact rationals ([Q]):
    [+], [-], [*] are exact and [%] is the sign-preserving remainder of
    ECMAScript ([Qrem], truncated quotient).  Rounding of IEEE doubles is
    not modelled.  Some places need more than [Q] and live in modules of
    their own: [Special] adds the value NaN, [Extended] the infinities as
    well, [RawHeading] computes the arctangent over the real numbers and
    [SignedZero] adds the negative zero to the sample components. *)

From Stdlib Require Import QArith Qabs Qminmax Qround Qpower Qreals.
From Stdlib Require Import ZArith Reals Psatz.
From Stdlib Require Import List String Bool.
Import ListNotations.

Local Open Scope string_scope.
Local Open Scope Q_scope.

(** ** JavaScript arithmetic on rationals *)

(** Integer part of a rational, rounded toward zero. *)
Definition Qtrunc (q : Q) : Z := Z.quot (Qnum q) (Zpos (Qden q)).

(** [a % b] of JavaScript: [a - b * trunc (a / b)]; the result has the
    sign of the dividend. *)
Definition Qrem (a b : Q) : Q := a - b * inject_Z (Qtrunc (a / b)).

Definition Qgtb (a b : Q) : bool := negb (Qle_bool a b).
Definition Qltb (a b : Q) : bool := negb (Qle_bool b a).
Definition Qgeb (a b : Q) : bool := Qle_bool b a.

(** ** Constant tables (App.js lines 7-18) *)

Record Direction := mkDirection {
  label : string;
  min : Q;
  max : Q;
  color : string
}.

Definition CARDINAL_DIRECTIONS : list Direction :=
  [ mkDirection "N"  (675 # 2) (45 # 2)  "#FF5252";
    mkDirection "NE" (45 # 2)  (135 # 2) "#FFFFFF";
    mkDirection "E"  (135 # 2) (225 # 2) "#4CAF50";
    mkDirection "SE" (225 # 2) (315 # 2) "#FFFFFF";
    mkDirection "S"  (315 # 2) (405 # 2) "#2196F3";
    mkDirection "SW" (405 # 2) (495 # 2) "#FFFFFF";
    mkDirection "W"  (495 # 2) (585 # 2) "#FFC107";
    mkDirection "NW" (585 # 2) (675 # 2) "#FFFFFF" ].

Definition PRIMARY_DIRECTIONS : list string := ["N"; "E"; "S"; "W"].

(** [Array.prototype.includes] on a list of strings. *)
Definition includes (xs : list string) (s : string) : bool :=
  existsb (String.eqb s) xs.

(** ** getCardinalDirection (App.js lines 25-33) *)

(** [(currentAngle + 360) % 360]. *)
Definition normalizedAngle (currentAngle : Q) : Q :=
  Qrem (currentAngle + 360) 360.

(** The predicate handed to [find]. *)
Definition inRange (normalized : Q) (dir : Direction) : bool :=
  if Qgtb (min dir) (max dir)
  then Qgeb normalized (min dir) || Qltb normalized (max dir)
  else Qgeb normalized (min dir) && Qltb normalized (max dir).

Definition getCardinalDirection (currentAngle : Q) : string :=
  match find (inRange (normalizedAngle currentAngle)) CARDINAL_DIRECTIONS with
  | Some direction => label direction
  | None => ""
  end.

(** getDirectionColor (App.js lines 35-38). *)
Definition getDirectionColor (direction : string) : string :=
  match find (fun d => String.eqb (label d) direction) CARDINAL_DIRECTIONS with
  | Some dir => color dir
  | None => "#FFFFFF"
  end.

(** The normalization the specification writes,
    [((angle % 360) + 360) % 360]; the source does not contain it. *)
Definition specNormalize (angle : Q) : Q :=
  Qrem (Qrem angle 360 + 360) 360.

(** ** The listener (App.js lines 43-74) *)

(** Line 45: [heading >= 0 ? heading : 360 + heading], applied to the
    arctangent already converted to degrees. *)
Definition wrapHeading (heading : Q) : Q :=
  if Qgeb heading 0 then heading else 360 + heading.

(** Lines 52-54: the 360-0 transition. *)
Definition correctDelta (delta : Q) : Q :=
  if Qgtb (Qabs delta) 180
  then (if Qgtb delta 0 then delta - 360 else delta + 360)
  else delta.

(** Lines 48-56 with the damping constant as an argument; the source
    writes it inline ([0.3], see [dampingFactor]). *)
Definition smooth (previous rawSample damping : Q) : Q :=
  let delta := correctDelta (rawSample - previous) in
  Qrem (previous + delta * damping) 360.

Definition dampingFactor : Q := 3 # 10.

Definition newAngleOf (currentValue heading : Q) : Q :=
  smooth currentValue heading dampingFactor.

(** *** State and one delivery of a sample *)

(** What a mounted effect closure holds: [angle] is the React state the
    render captured (line 48 reads it as [currentValue]); [lastDirection]
    is the [let] of line 41. *)
Record Closure := mkClosure {
  angle : Q;
  lastDirection : string
}.

(** What one call of the listener produces: the argument of [setAngle],
    the classification of it, whether [Haptics.impactAsync] was called,
    and the closure's [lastDirection] afterwards. *)
Record Reaction := mkReaction {
  newAngle : Q;
  newDirection : string;
  fired : bool;
  lastAfter : string
}.

(** The listener body from line 45 on; [theta] is
    [Math.atan2(y, x) * (180 / Math.PI)]. *)
Definition listener (c : Closure) (theta : Q) : Reaction :=
  let heading := wrapHeading theta in
  let currentValue := angle c in
  let newAngle := newAngleOf currentValue heading in
  let newDirection := getCardinalDirection newAngle in
  if includes PRIMARY_DIRECTIONS newDirection
  then if negb (String.eqb newDirection (lastDirection c))
       then mkReaction newAngle newDirection true newDirection
       else mkReaction newAngle newDirection false (lastDirection c)
  else mkReaction newAngle newDirection false (lastDirection c).

(** Running the effect (lines 40-41) for a render whose state is [a]. *)
Definition mountEffect (a : Q) : Closure :=
  mkClosure a (getCardinalDirection a).

(** One sample delivered to the mounted component.  [setAngle] with a
    value different from the current state re-renders; [angle] is in the
    dependency list of the effect (line 101), so the effect is torn down
    and run again, which is also what lets line 48 see the new angle.
    With an unchanged value React keeps the closure. *)
Definition deliver (c : Closure) (theta : Q) : Closure * Reaction :=
  let r := listener c theta in
  (if Qeq_bool (newAngle r) (angle c)
   then mkClosure (angle c) (lastAfter r)
   else mountEffect (newAngle r),
   r).

(** The component starts with [useState(0)]. *)
Definition initial : Closure := mountEffect 0.

(** A stream of samples, oldest first. *)
Fixpoint run (c : Closure) (thetas : list Q) : Closure * list Reaction :=
  match thetas with
  | [] => (c, [])
  | theta :: rest =>
      let step := deliver c theta in
      let later := run (fst step) rest in
      (fst later, snd step :: snd later)
  end.

(** Circular distance between two angles in degrees: the shorter of the
    two arcs.  Used to state the smoothing properties; not in the source. *)
Definition circularDistance (a b : Q) : Q :=
  let r := specNormalize (a - b) in
  Qmin r (360 - r).

(** The row of the table that holds a normalized angle. *)
Definition sector (n : Q) : nat :=
  if Qltb n (45 # 2) then 0%nat
  else if Qltb n (135 # 2) then 1%nat
  else if Qltb n (225 # 2) then 2%nat
  else if Qltb n (315 # 2) then 3%nat
  else if Qltb n (405 # 2) then 4%nat
  else if Qltb n (495 # 2) then 5%nat
  else if Qltb n (585 # 2) then 6%nat
  else if Qltb n (675 # 2) then 7%nat
  else 0%nat.

Definition defaultDirection : Direction := mkDirection "" 0 0 "#FFFFFF".

(** [smooth] applied [n] times to the same raw sample. *)
Fixpoint repeatSmooth (n : nat) (previous rawSample damping : Q) : Q :=
  match n with
  | O => previous
  | S m => repeatSmooth m (smooth previous rawSample damping) rawSample damping
  end.

(** ** The same listener on numbers that may be NaN *)

(** The listener receives whatever the sensor bridge delivers.  The
    rationals have no NaN, so the arithmetic of lines 45-56 and of the
    classifier is repeated here on rationals extended with NaN, with the
    ECMAScript rules for it: an arithmetic operation with a NaN operand is
    NaN and every comparison with NaN is false.  [Math.atan2] with a NaN
    argument is NaN, and so is its product with [180 / Math.PI]. *)
Module Special.

Inductive jsnum : Type :=
| Num (q : Q)
| NaN.

Definition add (a b : jsnum) : jsnum :=
  match a, b with Num x, Num y => Num (x + y) | _, _ => NaN end.
Definition sub (a b : jsnum) : jsnum :=
  match a, b with Num x, Num y => Num (x - y) | _, _ => NaN end.
Definition mul (a b : jsnum) : jsnum :=
  match a, b with Num x, Num y => Num (x * y) | _, _ => NaN end.
Definition rem (a b : jsnum) : jsnum :=
  match a, b with Num x, Num y => Num (Qrem x y) | _, _ => NaN end.
Definition abs (a : jsnum) : jsnum :=
  match a with Num x => Num (Qabs x) | NaN => NaN end.
Definition gtb (a b : jsnum) : bool :=
  match a, b with Num x, Num y => Qgtb x y | _, _ => false end.
Definition ltb (a b : jsnum) : bool :=
  match a, b with Num x, Num y => Qltb x y | _, _ => false end.
Definition geb (a b : jsnum) : bool :=
  match a, b with Num x, Num y => Qgeb x y | _, _ => false end.

(** [Object.is] on numbers, which is how React compares a new state with
    the current one: NaN is the same value as NaN. *)
Definition sameValue (a b : jsnum) : bool :=
  match a, b with
  | Num x, Num y => Qeq_bool x y
  | NaN, NaN => true
  | _, _ => false
  end.

Definition normalizedAngle (currentAngle : jsnum) : jsnum :=
  rem (add currentAngle (Num 360)) (Num 360).

Definition inRange (normalized : jsnum) (dir : Direction) : bool :=
  if Qgtb (min dir) (max dir)
  then geb normalized (Num (min dir)) || ltb normalized (Num (max dir))
  else geb normalized (Num (min dir)) && ltb normalized (Num (max dir)).

Definition getCardinalDirection (currentAngle : jsnum) : string :=
  match find (inRange (normalizedAngle currentAngle)) CARDINAL_DIRECTIONS with
  | Some direction => label direction
  | None => ""
  end.

Definition wrapHeading (heading : jsnum) : jsnum :=
  if geb heading (Num 0) then heading else add (Num 360) heading.

Definition correctDelta (delta : jsnum) : jsnum :=
  if gtb (abs delta) (Num 180)
  then (if gtb delta (Num 0) then sub delta (Num 360) else add delta (Num 360))
  else delta.

Definition newAngleOf (currentValue heading : jsnum) : jsnum :=
  let delta := correctDelta (sub heading currentValue) in
  rem (add currentValue (mul delta (Num dampingFactor))) (Num 360).

Record Closure := mkClosure {
  angle : jsnum;
  lastDirection : string
}.

Record Reaction := mkReaction {
  newAngle : jsnum;
  newDirection : string;
  fired : bool;
  lastAfter : string
}.

Definition listener (c : Closure) (theta : jsnum) : Reaction :=
  let heading := wrapHeading theta in
  let currentValue := angle c in
  let newAngle := newAngleOf currentValue heading in
  let newDirection := getCardinalDirection newAngle in
  if includes PRIMARY_DIRECTIONS newDirection
  then if negb (String.eqb newDirection (lastDirection c))
       then mkReaction newAngle newDirection true newDirection
       else mkReaction newAngle newDirection false (lastDirection c)
  else mkReaction newAngle newDirection false (lastDirection c).

Definition mountEffect (a : jsnum) : Closure :=
  mkClosure a (getCardinalDirection a).

Definition deliver (c : Closure) (theta : jsnum) : Closure * Reaction :=
  let r := listener c theta in
  (if sameValue (newAngle r) (angle c)
   then mkClosure (angle c) (lastAfter r)
   else mountEffect (newAngle r),
   r).

Definition initial : Closure := mountEffect (Num 0).

Fixpoint run (c : Closure) (thetas : list jsnum) : Closure * list Reaction :=
  match thetas with
  | [] => (c, [])
  | theta :: rest =>
      let step := deliver c theta in
      let later := run (fst step) rest in
      (fst later, snd step :: snd later)
  end.

End Special.

(** The rational model seen inside the extended one. *)
Definition embedClosure (c : Closure) : Special.Closure :=
  Special.mkClosure (Special.Num (angle c)) (lastDirection c).

Definition embedReaction (r : Reaction) : Special.Reaction :=
  Special.mkReaction (Special.Num (newAngle r)) (newDirection r)
                     (fired r) (lastAfter r).

(** ** The raw heading over the real numbers (App.js lines 44-45) *)

Module RawHeading.

Local Open Scope R_scope.

(** [Math.atan2(y, x)]: the angle of the point [(x, y)], in (-PI, PI],
    with the value 0 at the origin as ECMAScript defines it for zeros of
    positive sign. *)
Definition atan2 (y x : R) : R :=
  if Rlt_dec 0 x then atan (y / x)
  else if Rlt_dec x 0
       then (if Rle_dec 0 y then atan (y / x) + PI else atan (y / x) - PI)
       else if Rlt_dec 0 y then PI / 2
            else if Rlt_dec y 0 then - (PI / 2)
                 else 0.

(** Lines 44-45. *)
Definition heading (x y : R) : R :=
  let heading := atan2 y x * (180 / PI) in
  if Rle_dec 0 heading then heading else 360 + heading.

End RawHeading.

(** ** What the render derives from the angle (App.js lines 115-158) *)

(** [Math.round]: the nearest integer, a tie going to the larger one. *)
Definition mathRound (x : Q) : Z := Qfloor (x + (1 # 2)).

(** Line 117: [Math.round((angle + 360) % 360)]. *)
Definition roundedAngle (angle : Q) : Z :=
  mathRound (Qrem (angle + 360) 360).

(** One of the four letters drawn on the rose (lines 131-147). *)
Record CardinalPoint := mkCardinalPoint {
  pointText : string;
  pointColor : string;
  opacity : Q;
  fontSize : Z
}.

Definition cardinalPoints (currentDirection : string) : list CardinalPoint :=
  map (fun dir =>
         mkCardinalPoint dir
           (getDirectionColor dir)
           (if String.eqb currentDirection dir then 1 else 7 # 10)
           (if String.eqb currentDirection dir then 28%Z else 24%Z))
      PRIMARY_DIRECTIONS.

(** The values the returned tree depends on. *)
Record Screen := mkScreen {
  points : list CardinalPoint;
  angleText : Z;
  directionText : string;
  directionColor : string
}.

Definition render (angle : Q) : Screen :=
  let currentDirection := getCardinalDirection angle in
  let directionColor := getDirectionColor currentDirection in
  let roundedAngle := roundedAngle angle in
  mkScreen (cardinalPoints currentDirection) roundedAngle
           currentDirection directionColor.

(** The eight labels of the table. *)
Definition LABELS : list string := map label CARDINAL_DIRECTIONS.

(** ** The raw heading with signed zeros (App.js lines 43-45) *)

(** A sample component is a real number or the negative zero of
    JavaScript; [Real 0] is the positive zero.  [Math.atan2] tells the
    two zeros apart, so the origin is four samples, not one. *)
Module SignedZero.

Local Open Scope R_scope.

Inductive coord : Type :=
| MinusZero
| Real (r : R).

Definition signbit (c : coord) : bool :=
  match c with
  | MinusZero => true
  | Real r => if Rlt_dec r 0 then true else false
  end.

(** [Math.atan2(y, x)] as ECMAScript defines it: for [y] a zero the
    result is a zero when [x] is positive or [+0] and PI, with the sign
    of [y], when [x] is negative or [-0]; for [x] a zero and [y] not, it
    is PI/2 with the sign of [y]; elsewhere it is the angle of the point.
    A zero result is the real number 0 whatever its sign: line 45 tests
    [heading >= 0], which both zeros pass. *)
Definition atan2 (y x : coord) : R :=
  match y with
  | MinusZero => if signbit x then - PI else 0
  | Real ry =>
      match x with
      | MinusZero =>
          if Rlt_dec 0 ry then PI / 2
          else if Rlt_dec ry 0 then - (PI / 2)
               else PI
      | Real rx => RawHeading.atan2 ry rx
      end
  end.

(** Lines 44-45. *)
Definition heading (x y : coord) : R :=
  let heading := atan2 y x * (180 / PI) in
  if Rle_dec 0 heading then heading else 360 + heading.

End SignedZero.

(** [theta] is the value of [Math.atan2(y, x) * (180 / Math.PI)] for the
    sample [(x, y)]; the listener is modelled on rational readings. *)
Definition readingOf (x y : SignedZero.coord) (theta : Q) : Prop :=
  Q2R theta = (SignedZero.atan2 y x * (180 / PI))%R.

(** The listener called with the sample [{x, y}] (line 43): line 44
    gives the reading, the rest is [deliver]. *)
Inductive onSample (c : Closure) (x y : SignedZero.coord) :
  Closure * Reaction -> Prop :=
| onSample_reading (theta : Q) :
    readingOf x y theta -> onSample c x y (deliver c theta).

(** ** The classifier on every JavaScript number *)

(** The rationals with NaN and the two infinities, and on them the
    operations of lines 26-30 with their IEEE results: a sum with an
    infinity is that infinity, the remainder of an infinity is NaN, an
    infinity compares as larger or smaller than every rational, NaN
    compares false. *)
Module Extended.

Inductive jsnum : Type :=
| Num (q : Q)
| NaN
| PosInfinity
| NegInfinity.

Definition isFinite (a : jsnum) : bool :=
  match a with Num _ => true | _ => false end.

Definition add (a b : jsnum) : jsnum :=
  match a, b with
  | Num x, Num y => Num (x + y)
  | NaN, _ | _, NaN => NaN
  | PosInfinity, NegInfinity | NegInfinity, PosInfinity => NaN
  | PosInfinity, _ | _, PosInfinity => PosInfinity
  | NegInfinity, _ | _, NegInfinity => NegInfinity
  end.

Definition rem (a b : jsnum) : jsnum :=
  match a, b with
  | Num x, Num y => if Qeq_bool y 0 then NaN else Num (Qrem x y)
  | Num x, (PosInfinity | NegInfinity) => Num x
  | _, _ => NaN
  end.

Definition geb (a b : jsnum) : bool :=
  match a, b with
  | Num x, Num y => Qgeb x y
  | NaN, _ | _, NaN => false
  | PosInfinity, _ => true
  | _, NegInfinity => true
  | _, _ => false
  end.

Definition ltb (a b : jsnum) : bool :=
  match a, b with
  | Num x, Num y => Qltb x y
  | NaN, _ | _, NaN => false
  | NegInfinity, (Num _ | PosInfinity) => true
  | Num _, PosInfinity => true
  | _, _ => false
  end.

Definition normalizedAngle (currentAngle : jsnum) : jsnum :=
  rem (add currentAngle (Num 360)) (Num 360).

Definition inRange (normalized : jsnum) (dir : Direction) : bool :=
  if Qgtb (min dir) (max dir)
  then geb normalized (Num (min dir)) || ltb normalized (Num (max dir))
  else geb normalized (Num (min dir)) && ltb normalized (Num (max dir)).

Definition getCardinalDirection (currentAngle : jsnum) : string :=
  match find (inRange (normalizedAngle currentAngle)) CARDINAL_DIRECTIONS with
  | Some direction => label direction
  | None => ""
  end.

End Extended.

(** ** Proof automation *)

(** Settles every comparison of the goal that linear arithmetic decides. *)
Ltac settle_comparisons :=
  repeat match goal with
  | |- context [Qle_bool ?x ?y] =>
      first
        [ replace (Qle_bool x y) with true
            by (symmetry; apply Qle_bool_iff; lra)
        | replace (Qle_bool x y) with false
            by (symmetry; apply not_true_is_false; rewrite Qle_bool_iff; lra) ]
  end.

Ltac unfold_table :=
  cbv [CARDINAL_DIRECTIONS find filter inRange min max Qgtb Qltb Qgeb].

(** ** Facts about [%] *)

Lemma Qtrunc_nonneg (q : Q) :
  0 <= q -> inject_Z (Qtrunc q) <= q /\ q < inject_Z (Qtrunc q) + 1.
Proof.
  destruct q as [n d]. unfold Qtrunc, Qle, Qlt. simpl.
  intros Hn.
  assert (0 <= n)%Z as Hn' by lia.
  pose proof (Z.quot_rem' n (Zpos d)) as E.
  pose proof (Z.rem_bound_pos n (Zpos d) Hn' (Pos2Z.is_pos d)) as B.
  split; nia.
Qed.

Lemma Qtrunc_nonpos (q : Q) :
  q <= 0 -> q <= inject_Z (Qtrunc q) /\ inject_Z (Qtrunc q) - 1 < q.
Proof.
  destruct q as [n d]. unfold Qtrunc, Qle, Qlt. simpl.
  intros Hn.
  assert (n <= 0)%Z as Hn' by lia.
  pose proof (Z.quot_rem' n (Zpos d)) as E.
  pose proof (Z.rem_bound_pos_neg n (Zpos d) (Pos2Z.is_pos d) Hn') as B.
  split; nia.
Qed.

(** [x % 360] differs from [x] by a multiple of 360 and keeps its sign. *)
Lemma Qrem_360 (a : Q) :
  exists k : Z,
    Qrem a 360 == a - 360 * inject_Z k /\
    (0 <= a -> 0 <= Qrem a 360 /\ Qrem a 360 < 360) /\
    (a <= 0 -> -360 < Qrem a 360 /\ Qrem a 360 <= 0).
Proof.
  exists (Qtrunc (a / 360)). unfold Qrem.
  assert (E : a == 360 * (a / 360)) by (field; discriminate).
  revert E. generalize (a / 360). intros q E.
  split; [reflexivity|]. split; intros Ha.
  - destruct (Qtrunc_nonneg q) as [L U]; lra.
  - destruct (Qtrunc_nonpos q) as [L U]; lra.
Qed.

Lemma inject_Z_minus (x y : Z) : inject_Z (x - y) = inject_Z x - inject_Z y.
Proof.
  unfold Z.sub. rewrite inject_Z_plus, inject_Z_opp. reflexivity.
Qed.

(** An integer strictly between -1 and 1 is 0. *)
Lemma inject_Z_small (k : Z) :
  -1 < inject_Z k -> inject_Z k < 1 -> k = 0%Z.
Proof.
  unfold Qlt. simpl. lia.
Qed.

(** Two values that differ by a multiple of 360 and are less than 360
    apart are equal. *)
Lemma congruent_close (r1 r2 : Q) (k : Z) :
  r1 == r2 + 360 * inject_Z k -> -360 < r1 - r2 -> r1 - r2 < 360 -> r1 == r2.
Proof.
  intros E L U.
  assert (k = 0%Z) as -> by (apply inject_Z_small; lra).
  rewrite E. unfold inject_Z. lra.
Qed.

(** [%] is determined by the sign of the dividend and the residue. *)
Lemma Qrem_360_nonneg (a r : Q) (k : Z) :
  0 <= a -> r == a - 360 * inject_Z k -> 0 <= r -> r < 360 ->
  Qrem a 360 == r.
Proof.
  intros Ha E L U.
  destruct (Qrem_360 a) as (k' & E' & P & _). destruct (P Ha) as [L' U'].
  apply (congruent_close _ _ (k - k')); [|lra|lra].
  rewrite inject_Z_minus, E', E. lra.
Qed.

Lemma Qrem_360_nonpos (a r : Q) (k : Z) :
  a <= 0 -> r == a - 360 * inject_Z k -> -360 < r -> r <= 0 ->
  Qrem a 360 == r.
Proof.
  intros Ha E L U.
  destruct (Qrem_360 a) as (k' & E' & _ & P). destruct (P Ha) as [L' U'].
  apply (congruent_close _ _ (k - k')); [|lra|lra].
  rewrite inject_Z_minus, E', E. lra.
Qed.

(** The result of [%] is strictly between -360 and 360. *)
Lemma Qrem_360_range (a : Q) : -360 < Qrem a 360 /\ Qrem a 360 < 360.
Proof.
  destruct (Qrem_360 a) as (k & _ & P & N).
  destruct (Qlt_le_dec a 0) as [Ha|Ha].
  - destruct N; lra.
  - destruct P; lra.
Qed.

Lemma Qrem_360_small (a : Q) : -360 < a -> a < 360 -> Qrem a 360 == a.
Proof.
  intros L U. destruct (Qlt_le_dec a 0) as [Ha|Ha].
  - apply (Qrem_360_nonpos a a 0); unfold inject_Z; lra.
  - apply (Qrem_360_nonneg a a 0); unfold inject_Z; lra.
Qed.

(** ** Facts about the two normalizations *)

Lemma normalizedAngle_range (a : Q) :
  -360 <= a -> 0 <= normalizedAngle a /\ normalizedAngle a < 360.
Proof.
  intros Ha. unfold normalizedAngle.
  destruct (Qrem_360 (a + 360)) as (k & _ & P & _). apply P. lra.
Qed.

Lemma normalizedAngle_id (a : Q) :
  0 <= a -> a < 360 -> normalizedAngle a == a.
Proof.
  intros L U. unfold normalizedAngle.
  apply (Qrem_360_nonneg _ _ 1); unfold inject_Z; lra.
Qed.

Lemma specNormalize_spec (x : Q) :
  exists k : Z,
    specNormalize x == x - 360 * inject_Z k /\
    0 <= specNormalize x /\ specNormalize x < 360.
Proof.
  unfold specNormalize.
  destruct (Qrem_360_range x) as [L U].
  destruct (Qrem_360 x) as (k1 & E1 & _).
  destruct (Qrem_360 (Qrem x 360 + 360)) as (k2 & E2 & P & _).
  exists (k1 + k2 - 1)%Z. split.
  - rewrite inject_Z_minus, inject_Z_plus. change (inject_Z 1) with 1.
    rewrite E2, E1. lra.
  - apply P. lra.
Qed.

(** On angles from -360 upwards the source's normalization and the
    specification's agree. *)
Lemma normalizedAngle_specNormalize (a : Q) :
  -360 <= a -> normalizedAngle a == specNormalize a.
Proof.
  intros Ha.
  destruct (normalizedAngle_range a Ha) as [L U].
  destruct (specNormalize_spec a) as (k & E & L' & U').
  unfold normalizedAngle in *.
  destruct (Qrem_360 (a + 360)) as (k' & E' & _).
  apply (congruent_close _ _ (k - k' + 1)); [|lra|lra].
  rewrite inject_Z_plus, inject_Z_minus. change (inject_Z 1) with 1.
  rewrite E', E. lra.
Qed.

(** ** Facts about the classifier *)

Lemma inRange_compat (n n' : Q) (d : Direction) :
  n == n' -> inRange n d = inRange n' d.
Proof.
  intros E. unfold inRange, Qgeb, Qltb.
  assert (Qle_bool (min d) n = Qle_bool (min d) n') as -> by now rewrite E.
  assert (Qle_bool (max d) n = Qle_bool (max d) n') as -> by now rewrite E.
  reflexivity.
Qed.

Lemma find_inRange_compat (n n' : Q) (l : list Direction) :
  n == n' -> find (inRange n) l = find (inRange n') l.
Proof.
  intros E. induction l as [|d l IH]; simpl; [reflexivity|].
  rewrite (inRange_compat n n' d E), IH. reflexivity.
Qed.

(** For an angle in [0,360) exactly the row [sector n] matches. *)
Lemma inRange_sector (n : Q) :
  0 <= n -> n < 360 ->
  filter (inRange n) CARDINAL_DIRECTIONS
    = [nth (sector n) CARDINAL_DIRECTIONS defaultDirection] /\
  find (inRange n) CARDINAL_DIRECTIONS
    = Some (nth (sector n) CARDINAL_DIRECTIONS defaultDirection).
Proof.
  intros L U. unfold sector, Qltb.
  destruct (Qlt_le_dec n (45 # 2)); [|
  destruct (Qlt_le_dec n (135 # 2)); [|
  destruct (Qlt_le_dec n (225 # 2)); [|
  destruct (Qlt_le_dec n (315 # 2)); [|
  destruct (Qlt_le_dec n (405 # 2)); [|
  destruct (Qlt_le_dec n (495 # 2)); [|
  destruct (Qlt_le_dec n (585 # 2)); [|
  destruct (Qlt_le_dec n (675 # 2))]]]]]]];
  unfold_table; settle_comparisons; simpl; split; reflexivity.
Qed.

Lemma sector_lt (n : Q) : (sector n < 8)%nat.
Proof.
  unfold sector.
  repeat match goal with
         | |- context [if ?b then _ else _] => destruct b
         end; lia.
Qed.

(** Below 360 and not below -360, the classifier returns the label of
    the row that holds the normalized angle. *)
Lemma getCardinalDirection_sector (a : Q) :
  -360 <= a ->
  getCardinalDirection a
  = label (nth (sector (normalizedAngle a)) CARDINAL_DIRECTIONS defaultDirection).
Proof.
  intros Ha. unfold getCardinalDirection.
  destruct (normalizedAngle_range a Ha) as [L U].
  destruct (inRange_sector _ L U) as [_ ->]. reflexivity.
Qed.


(** ** Classification *)

(** C1.  Every angle in [0,360) is matched by exactly one row of the
    table, and [getCardinalDirection] returns that row's label, one of the
    eight; an angle equal to a row's [min] belongs to that row; and
    22.5, 337.5, 0 and 359.999 classify as NE, N, N and N. *)
Theorem classification_total :
  (forall a : Q, 0 <= a -> a < 360 ->
     exists d : Direction,
       filter (inRange a) CARDINAL_DIRECTIONS = [d] /\
       getCardinalDirection a = label d /\
       In (label d) ["N"; "NE"; "E"; "SE"; "S"; "SW"; "W"; "NW"]) /\
  (forall d : Direction, In d CARDINAL_DIRECTIONS ->
     getCardinalDirection (min d) = label d) /\
  getCardinalDirection (45 # 2) = "NE" /\
  getCardinalDirection (675 # 2) = "N" /\
  getCardinalDirection 0 = "N" /\
  getCardinalDirection (359999 # 1000) = "N".
Proof.
  split; [|split; [|repeat split; reflexivity]].
  - intros a L U.
    exists (nth (sector a) CARDINAL_DIRECTIONS defaultDirection).
    destruct (inRange_sector a L U) as [F _]. split; [exact F|]. split.
    + rewrite getCardinalDirection_sector by lra.
      unfold sector, Qltb.
      assert (E : forall c, Qle_bool c (normalizedAngle a) = Qle_bool c a)
        by (intros c; rewrite (normalizedAngle_id a L U); reflexivity).
      rewrite !E. reflexivity.
    + pose proof (sector_lt a) as B.
      generalize dependent (sector a). intros k _ B.
      do 8 (destruct k as [|k]; [simpl; auto 10|]). lia.
  - intros d Hd. simpl in Hd.
    repeat (destruct Hd as [<-|Hd]; [reflexivity|]). contradiction.
Qed.

Lemma classification_total_witness :
  exists d : Direction,
    filter (inRange 100) CARDINAL_DIRECTIONS = [d] /\
    getCardinalDirection 100 = label d /\
    In (label d) ["N"; "NE"; "E"; "SE"; "S"; "SW"; "W"; "NW"].
Proof.
  apply (proj1 classification_total 100); lra.
Defined.

(** C4, as stated, fails: -450 is classified N, while the angle the
    specification's formula yields for it, 270, is classified W; the
    source's [(angle + 360) % 360] leaves -450 at -90. *)
Lemma classify_unnormalized_counterexample :
  normalizedAngle (-450) == -90 /\
  specNormalize (-450) == 270 /\
  getCardinalDirection (-450) = "N" /\
  getCardinalDirection (specNormalize (-450)) = "W".
Proof.
  repeat split; reflexivity.
Qed.

(** C4, amended.  The classifier normalizes by [(angle + 360) % 360].
    For every angle not below -360 this is the value of
    [((angle % 360) + 360) % 360], it lies in [0,360), and the angle is
    classified like its normalized value. *)
Theorem classify_normalizes_from_minus_360 (a : Q) :
  -360 <= a ->
  normalizedAngle a == specNormalize a /\
  0 <= normalizedAngle a /\ normalizedAngle a < 360 /\
  getCardinalDirection a = getCardinalDirection (specNormalize a).
Proof.
  intros Ha.
  pose proof (normalizedAngle_specNormalize a Ha) as E.
  destruct (normalizedAngle_range a Ha) as [L U].
  repeat split; try assumption.
  unfold getCardinalDirection.
  rewrite (find_inRange_compat (normalizedAngle (specNormalize a))
                               (normalizedAngle a)); [reflexivity|].
  transitivity (specNormalize a); [|symmetry; exact E].
  apply normalizedAngle_id; lra.
Qed.

Lemma classify_normalizes_from_minus_360_witness :
  normalizedAngle (-90) == specNormalize (-90) /\
  0 <= normalizedAngle (-90) /\ normalizedAngle (-90) < 360 /\
  getCardinalDirection (-90) = getCardinalDirection (specNormalize (-90)).
Proof.
  apply (classify_normalizes_from_minus_360 (-90)). lra.
Defined.

(** ** Smoothing *)

Lemma Qrem_360_compat (a a' : Q) : a == a' -> Qrem a 360 == Qrem a' 360.
Proof.
  intros E.
  destruct (Qrem_360 a') as (k & E' & P & N).
  destruct (Qlt_le_dec a 0) as [Ha|Ha].
  - apply (Qrem_360_nonpos a _ k); [lra|lra| |]; apply N; lra.
  - apply (Qrem_360_nonneg a _ k); [lra|lra| |]; apply P; lra.
Qed.

(** The three cases of lines 52-54. *)
Lemma correctDelta_cases (delta : Q) :
  (Qabs delta <= 180 /\ correctDelta delta = delta) \/
  (180 < Qabs delta /\ 0 < delta /\ correctDelta delta = delta - 360) \/
  (180 < Qabs delta /\ delta <= 0 /\ correctDelta delta = delta + 360).
Proof.
  unfold correctDelta, Qgtb.
  destruct (Qle_bool (Qabs delta) 180) eqn:A; simpl.
  - left. apply Qle_bool_iff in A. auto.
  - right.
    assert (180 < Qabs delta) as A'
      by (apply Qnot_le_lt; rewrite <- Qle_bool_iff, A; discriminate).
    destruct (Qle_bool delta 0) eqn:B; simpl.
    + right. apply Qle_bool_iff in B. auto.
    + left. repeat split; auto.
      apply Qnot_le_lt. rewrite <- Qle_bool_iff, B. discriminate.
Qed.

Lemma Qabs_cases (x : Q) :
  (0 <= x /\ Qabs x == x) \/ (x < 0 /\ Qabs x == - x).
Proof.
  destruct (Qlt_le_dec x 0) as [H|H].
  - right. split; [assumption|]. apply Qabs_neg. lra.
  - left. split; [assumption|]. apply Qabs_pos. assumption.
Qed.

Lemma correctDelta_compat (x y : Q) :
  x == y -> correctDelta x == correctDelta y.
Proof.
  intros E.
  destruct (correctDelta_cases x) as [(A & ->)|[(A & B & ->)|(A & B & ->)]];
  destruct (correctDelta_cases y) as [(A' & ->)|[(A' & B' & ->)|(A' & B' & ->)]];
  destruct (Qabs_cases x) as [[? Hx]|[? Hx]];
  destruct (Qabs_cases y) as [[? Hy]|[? Hy]]; lra.
Qed.

Lemma smooth_compat (p p' r r' d d' : Q) :
  p == p' -> r == r' -> d == d' -> smooth p r d == smooth p' r' d'.
Proof.
  intros Ep Er Ed. unfold smooth. apply Qrem_360_compat.
  rewrite (correctDelta_compat (r - p) (r' - p')) by lra.
  rewrite Ep, Ed. reflexivity.
Qed.

(** Between two headings of [0,360) the corrected delta is at most half
    a turn. *)
Lemma correctDelta_short (p r : Q) :
  0 <= p -> p < 360 -> 0 <= r -> r < 360 ->
  Qabs (correctDelta (r - p)) <= 180.
Proof.
  intros Lp Up Lr Ur.
  destruct (correctDelta_cases (r - p)) as [(A & ->)|[(A & B & ->)|(A & B & ->)]].
  - assumption.
  - destruct (Qabs_cases (r - p)) as [[? Hx]|[? Hx]];
    destruct (Qabs_cases (r - p - 360)) as [[? Hy]|[? Hy]]; lra.
  - destruct (Qabs_cases (r - p)) as [[? Hx]|[? Hx]];
    destruct (Qabs_cases (r - p + 360)) as [[? Hy]|[? Hy]]; lra.
Qed.

(** A step of at most half a turn moves the heading by exactly its
    length, measured along the circle. *)
Lemma circularDistance_step (p t : Q) :
  Qabs t <= 180 -> circularDistance (Qrem (p + t) 360) p == Qabs t.
Proof.
  intros Ht. unfold circularDistance.
  destruct (Qrem_360 (p + t)) as (k & E & _).
  destruct (specNormalize_spec (Qrem (p + t) 360 - p)) as (k' & E' & L & U).
  set (n := specNormalize (Qrem (p + t) 360 - p)) in *.
  destruct (Q.min_spec n (360 - n)) as [[M ->]|[M ->]];
  destruct (Qabs_cases t) as [[S Ha]|[S Ha]]; rewrite Ha in *.
  - apply (congruent_close _ _ (- (k + k'))); [|lra|lra].
    rewrite inject_Z_opp, inject_Z_plus, E', E. lra.
  - assert (n == t + 360); [|lra].
    apply (congruent_close _ _ (- (k + k') - 1)); [|lra|lra].
    rewrite inject_Z_minus, inject_Z_opp, inject_Z_plus, E', E.
    change (inject_Z 1) with 1. lra.
  - assert (n == t); [|lra].
    apply (congruent_close _ _ (- (k + k'))); [|lra|lra].
    rewrite inject_Z_opp, inject_Z_plus, E', E. lra.
  - assert (n == t + 360); [|lra].
    apply (congruent_close _ _ (- (k + k') - 1)); [|lra|lra].
    rewrite inject_Z_minus, inject_Z_opp, inject_Z_plus, E', E.
    change (inject_Z 1) with 1. lra.
Qed.

Lemma listener_newAngle (c : Closure) (theta : Q) :
  newAngle (listener c theta) = smooth (angle c) (wrapHeading theta) dampingFactor.
Proof.
  unfold listener, newAngleOf.
  repeat match goal with
         | |- context [if ?b then _ else _] => destruct b
         end; reflexivity.
Qed.

Lemma listener_newDirection (c : Closure) (theta : Q) :
  newDirection (listener c theta)
  = getCardinalDirection (newAngle (listener c theta)).
Proof.
  unfold listener.
  repeat match goal with
         | |- context [if ?b then _ else _] => destruct b
         end; reflexivity.
Qed.

(** C2.  With [delta = rawSample - previous], the delta used by the
    smoother is [delta] when [|delta| <= 180], [delta - 360] when
    [|delta| > 180] and [delta > 0], and [delta + 360] when [|delta| > 180]
    and [delta <= 0]; the new value is the remainder of
    [previous + delta * dampingFactor] by 360.  From 350 toward 10 with
    damping 0.3 the delta is 20 and the result 356, also through the
    listener. *)
Theorem shortest_arc_correction :
  (forall previous rawSample damping : Q,
     let delta := rawSample - previous in
     (Qabs delta <= 180 -> correctDelta delta == delta) /\
     (180 < Qabs delta -> 0 < delta -> correctDelta delta == delta - 360) /\
     (180 < Qabs delta -> delta <= 0 -> correctDelta delta == delta + 360) /\
     smooth previous rawSample damping
       == Qrem (previous + correctDelta delta * damping) 360) /\
  correctDelta (10 - 350) == 20 /\
  smooth 350 10 (3 # 10) == 356 /\
  (forall last : string, newAngle (listener (mkClosure 350 last) 10) == 356).
Proof.
  split; [|split; [reflexivity|split; [reflexivity|]]].
  - intros previous rawSample damping delta.
    destruct (correctDelta_cases delta) as [(A & E)|[(A & B & E)|(A & B & E)]];
      rewrite E; repeat split; intros; try reflexivity; try lra.
    + unfold smooth. fold delta. rewrite E. reflexivity.
    + unfold smooth. fold delta. rewrite E. reflexivity.
    + unfold smooth. fold delta. rewrite E. reflexivity.
  - intros last. rewrite listener_newAngle. reflexivity.
Qed.

Lemma shortest_arc_correction_witness :
  correctDelta (10 - 350) == 10 - 350 + 360.
Proof.
  apply (proj1 shortest_arc_correction 350 10 (3 # 10)).
  - reflexivity.
  - vm_compute. discriminate.
Defined.

(** C5, as stated, fails: from the initial state a reading of -10 degrees
    (raw heading 350) stores -3. *)
Lemma stored_heading_negative_counterexample :
  wrapHeading (-10) == 350 /\
  angle (fst (deliver initial (-10))) == -3 /\
  ~ 0 <= angle (fst (deliver initial (-10))).
Proof.
  repeat split; try reflexivity. vm_compute. intros H. apply H. reflexivity.
Qed.

Lemma listener_range (c : Closure) (theta : Q) :
  -360 < newAngle (listener c theta) /\ newAngle (listener c theta) < 360.
Proof.
  rewrite listener_newAngle. unfold smooth. apply Qrem_360_range.
Qed.

Lemma deliver_range (c : Closure) (theta : Q) :
  -360 < angle c /\ angle c < 360 ->
  -360 < angle (fst (deliver c theta)) /\ angle (fst (deliver c theta)) < 360.
Proof.
  intros H. unfold deliver.
  destruct (Qeq_bool (newAngle (listener c theta)) (angle c)); simpl.
  - exact H.
  - apply listener_range.
Qed.

Lemma run_cons (c : Closure) (theta : Q) (rest : list Q) :
  run c (theta :: rest)
  = (fst (run (fst (deliver c theta)) rest),
     listener c theta :: snd (run (fst (deliver c theta)) rest)).
Proof.
  reflexivity.
Qed.

(** C5, amended.  The value handed to [setAngle] is
    [(previous + delta * 0.3) % 360] with the sign-preserving remainder:
    after every sample of every stream the value and the stored angle lie
    strictly between -360 and 360, and what the classifier and the display
    compute from the value, [(angle + 360) % 360], lies in [0,360). *)
Theorem stored_heading_range (thetas : list Q) :
  let result := run initial thetas in
  (-360 < angle (fst result) /\ angle (fst result) < 360) /\
  Forall (fun r => (-360 < newAngle r /\ newAngle r < 360) /\
                   0 <= normalizedAngle (newAngle r) /\
                   normalizedAngle (newAngle r) < 360)
         (snd result).
Proof.
  simpl.
  assert (I : -360 < angle initial /\ angle initial < 360)
    by (split; reflexivity).
  revert I. generalize initial.
  induction thetas as [|theta rest IH]; intros c I.
  - split; [exact I|constructor].
  - rewrite run_cons. cbn [fst snd].
    destruct (IH _ (deliver_range c theta I)) as [I2 F].
    split; [exact I2|].
    constructor; [|exact F].
    pose proof (listener_range c theta) as R. split; [exact R|].
    apply normalizedAngle_range. lra.
Qed.

Lemma correctDelta_zero (x : Q) : x == 0 -> correctDelta x == 0.
Proof.
  intros E. rewrite (correctDelta_compat x 0 E). reflexivity.
Qed.

(** C7.  A raw sample equal to the previous heading leaves it where it
    is, whatever the damping factor, and so does any number of such
    samples in a row. *)
Theorem smooth_stable_input (h d : Q) :
  0 <= h -> h < 360 ->
  smooth h h d == h /\ forall n : nat, repeatSmooth n h h d == h.
Proof.
  intros L U.
  assert (F : forall p, p == h -> smooth p h d == h).
  { intros p E. unfold smooth.
    pose proof (correctDelta_zero (h - p)) as Z.
    assert (p + correctDelta (h - p) * d == h) as S
      by (rewrite Z by lra; lra).
    rewrite (Qrem_360_compat _ _ S). apply Qrem_360_small; lra. }
  split; [apply F; reflexivity|].
  assert (G : forall n p, p == h -> repeatSmooth n p h d == h).
  { induction n as [|n IH]; intros p E; simpl.
    - exact E.
    - apply IH, F, E. }
  intros n. apply G. reflexivity.
Qed.

Lemma smooth_stable_input_witness :
  smooth 90 90 (3 # 10) == 90 /\
  forall n : nat, repeatSmooth n 90 90 (3 # 10) == 90.
Proof.
  apply (smooth_stable_input 90 (3 # 10)); lra.
Defined.


(** ** The haptic trigger *)

Lemma getCardinalDirection_compat (a a' : Q) :
  a == a' -> getCardinalDirection a = getCardinalDirection a'.
Proof.
  intros E. unfold getCardinalDirection.
  rewrite (find_inRange_compat (normalizedAngle a) (normalizedAngle a'));
    [reflexivity|].
  unfold normalizedAngle. apply Qrem_360_compat. rewrite E. reflexivity.
Qed.

Lemma listener_lastAfter (c : Closure) (theta : Q) :
  lastAfter (listener c theta)
  = if fired (listener c theta)
    then newDirection (listener c theta)
    else lastDirection c.
Proof.
  unfold listener.
  destruct (includes PRIMARY_DIRECTIONS _);
    [destruct (negb _)|]; cbn [lastAfter fired newDirection]; reflexivity.
Qed.

Lemma listener_fired (c : Closure) (theta : Q) :
  fired (listener c theta)
  = includes PRIMARY_DIRECTIONS (newDirection (listener c theta))
    && negb (String.eqb (newDirection (listener c theta)) (lastDirection c)).
Proof.
  unfold listener.
  destruct (includes PRIMARY_DIRECTIONS _) eqn:P;
    [destruct (negb _) eqn:N|]; cbn [fired newDirection];
    rewrite ?P, ?N; reflexivity.
Qed.

Lemma deliver_fst (c : Closure) (theta : Q) :
  fst (deliver c theta)
  = if Qeq_bool (newAngle (listener c theta)) (angle c)
    then mkClosure (angle c) (lastAfter (listener c theta))
    else mountEffect (newAngle (listener c theta)).
Proof.
  reflexivity.
Qed.

(** When the closure's [lastDirection] is the label of its angle, so is
    that of the closure that handles the next sample. *)
Lemma deliver_lastDirection (c : Closure) (theta : Q) :
  lastDirection c = getCardinalDirection (angle c) ->
  lastDirection (fst (deliver c theta))
  = getCardinalDirection (angle (fst (deliver c theta))).
Proof.
  intros I. rewrite deliver_fst.
  destruct (Qeq_bool (newAngle (listener c theta)) (angle c)) eqn:Same;
    cbn [mountEffect lastDirection angle]; [|reflexivity].
  apply Qeq_bool_iff in Same.
  rewrite listener_lastAfter, listener_fired, listener_newDirection.
  rewrite (getCardinalDirection_compat _ _ Same), <- I.
  rewrite String.eqb_refl, andb_false_r. reflexivity.
Qed.

(** C3 fails on the code.  On every stream the [lastDirection] of the
    mounted closure is the label of the stored angle, primary or diagonal,
    because the effect that declares it runs again after each change of
    the angle.  The readings 90, 0, 90, 180 degrees from the initial state
    give the labels NE, N, NE, E after the initial N: [lastDirection] is NE
    after the first, and the haptic call is made at the second N and at
    E. *)
Theorem haptic_refires_after_diagonal :
  (forall thetas : list Q,
     lastDirection (fst (run initial thetas))
     = getCardinalDirection (angle (fst (run initial thetas)))) /\
  lastDirection initial = "N" /\
  map (fun r => (newDirection r, fired r)) (snd (run initial [90; 0; 90; 180]))
  = [("NE", false); ("N", true); ("NE", false); ("E", true)] /\
  lastDirection (fst (run initial [90])) = "NE".
Proof.
  split; [|split; [reflexivity|split; vm_compute; reflexivity]].
  intros thetas.
  assert (I : lastDirection initial = getCardinalDirection (angle initial))
    by reflexivity.
  revert I. generalize initial.
  induction thetas as [|theta rest IH]; intros c I.
  - exact I.
  - rewrite run_cons. cbn [fst]. apply IH, deliver_lastDirection, I.
Qed.

(** ** NaN readings *)

Lemma special_inRange_Num (n : Q) (d : Direction) :
  Special.inRange (Special.Num n) d = inRange n d.
Proof.
  reflexivity.
Qed.

Lemma special_getCardinalDirection_Num (a : Q) :
  Special.getCardinalDirection (Special.Num a) = getCardinalDirection a.
Proof.
  reflexivity.
Qed.

Lemma special_newAngleOf_Num (p h : Q) :
  Special.newAngleOf (Special.Num p) (Special.Num h)
  = Special.Num (newAngleOf p h).
Proof.
  unfold Special.newAngleOf, Special.correctDelta, newAngleOf, smooth,
    correctDelta.
  cbn [Special.sub Special.abs Special.gtb].
  destruct (Qgtb (Qabs (h - p)) 180); [destruct (Qgtb (h - p) 0)|];
    reflexivity.
Qed.

Lemma special_wrapHeading_Num (theta : Q) :
  Special.wrapHeading (Special.Num theta) = Special.Num (wrapHeading theta).
Proof.
  unfold Special.wrapHeading, wrapHeading. cbn [Special.geb].
  destruct (Qgeb theta 0); reflexivity.
Qed.

(** On rational readings the extended listener is the rational one. *)
Lemma special_listener_Num (c : Closure) (theta : Q) :
  Special.listener (embedClosure c) (Special.Num theta)
  = embedReaction (listener c theta).
Proof.
  unfold Special.listener, listener, embedClosure.
  cbn [Special.angle Special.lastDirection].
  rewrite special_wrapHeading_Num, special_newAngleOf_Num,
    special_getCardinalDirection_Num.
  unfold embedReaction.
  destruct (includes PRIMARY_DIRECTIONS _); [destruct (negb _)|];
    cbn [newAngle newDirection fired lastAfter]; reflexivity.
Qed.

Lemma special_listener_NaN (c : Special.Closure) :
  Special.listener c Special.NaN
  = Special.mkReaction Special.NaN "" false (Special.lastDirection c).
Proof.
  destruct c as [[q|] last]; reflexivity.
Qed.

Lemma special_newAngleOf_poisoned (heading : Special.jsnum) :
  Special.newAngleOf Special.NaN heading = Special.NaN.
Proof.
  destruct heading as [h|]; reflexivity.
Qed.

(** C6, as stated, fails: a NaN reading delivered in the initial state is
    not refused; it replaces the stored angle 0 by NaN. *)
Lemma nan_reading_counterexample :
  Special.angle Special.initial = Special.Num 0 /\
  Special.angle (fst (Special.deliver Special.initial Special.NaN))
  = Special.NaN /\
  Special.angle (fst (Special.deliver Special.initial Special.NaN))
  <> Special.angle Special.initial.
Proof.
  repeat split; try reflexivity. vm_compute. discriminate.
Qed.

(** C6, amended.  The listener checks nothing and has no failure
    outcome.  A NaN reading is carried through the arithmetic: the value
    handed to [setAngle] is NaN, the label is empty and no haptic call is
    made; once the stored angle is NaN every later reading leaves it NaN.
    A rational reading is processed as in the rational model. *)
Theorem nan_reading_not_rejected :
  (forall c : Special.Closure,
     Special.listener c Special.NaN
     = Special.mkReaction Special.NaN "" false (Special.lastDirection c)) /\
  (forall (last : string) (q : Q),
     Special.angle
       (fst (Special.deliver (Special.mkClosure (Special.Num q) last)
                             Special.NaN))
     = Special.NaN) /\
  (forall (last : string) (thetas : list Special.jsnum),
     Special.angle
       (fst (Special.run (Special.mkClosure Special.NaN last) thetas))
     = Special.NaN) /\
  (forall (c : Closure) (theta : Q),
     Special.listener (embedClosure c) (Special.Num theta)
     = embedReaction (listener c theta)).
Proof.
  split; [exact special_listener_NaN|].
  split; [|split; [|exact special_listener_Num]].
  - intros last q. unfold Special.deliver.
    rewrite special_listener_NaN. reflexivity.
  - intros last thetas. revert last.
    induction thetas as [|theta rest IH]; intros last; [reflexivity|].
    cbn [Special.run fst].
    assert (exists last', fst (Special.deliver (Special.mkClosure Special.NaN last) theta)
                          = Special.mkClosure Special.NaN last') as [last' ->].
    { unfold Special.deliver, Special.listener.
      cbn [Special.angle]. rewrite special_newAngleOf_poisoned.
      destruct (includes PRIMARY_DIRECTIONS _); [destruct (negb _)|];
        cbn [fst Special.newAngle Special.sameValue Special.lastAfter];
        eexists; reflexivity. }
    apply IH.
Qed.

(** ** The raw heading *)

Section RawHeadingFacts.

Local Open Scope R_scope.

Lemma atan_nonpos (u : R) : u <= 0 -> atan u <= 0.
Proof.
  intros [H|H].
  - left. rewrite <- atan_0. apply atan_increasing, H.
  - right. rewrite H. apply atan_0.
Qed.

Lemma atan_pos (u : R) : 0 < u -> 0 < atan u.
Proof.
  intros H. rewrite <- atan_0. apply atan_increasing, H.
Qed.

(** The arctangent of two arguments lies in (-PI, PI]. *)
Lemma atan2_range (y x : R) :
  - PI < RawHeading.atan2 y x /\ RawHeading.atan2 y x <= PI.
Proof.
  pose proof PI_RGT_0 as P.
  pose proof (atan_bound (y / x)) as [L U].
  unfold RawHeading.atan2.
  destruct (Rlt_dec 0 x) as [Hx|Hx]; [lra|].
  destruct (Rlt_dec x 0) as [Hx'|Hx'].
  - assert (E : y / x * x = y) by (field; lra).
    destruct (Rle_dec 0 y) as [Hy|Hy].
    + assert (y / x <= 0) as N by nra.
      pose proof (atan_nonpos _ N). lra.
    + assert (0 < y / x) as N by nra.
      pose proof (atan_pos _ N). lra.
  - destruct (Rlt_dec 0 y); [lra|]. destruct (Rlt_dec y 0); lra.
Qed.

End RawHeadingFacts.

(** ** The classifier on every rational *)

Lemma find_inRange_low (n : Q) :
  n < 45 # 2 ->
  find (inRange n) CARDINAL_DIRECTIONS
  = Some (nth 0 CARDINAL_DIRECTIONS defaultDirection).
Proof.
  intros H. unfold_table.
  replace (Qle_bool (45 # 2) n) with false
    by (symmetry; apply not_true_is_false; rewrite Qle_bool_iff; lra).
  settle_comparisons. rewrite orb_true_r. reflexivity.
Qed.

Lemma nth_label_in (k : nat) :
  (k < 8)%nat ->
  In (label (nth k CARDINAL_DIRECTIONS defaultDirection)) LABELS.
Proof.
  intros B. do 8 (destruct k as [|k]; [simpl; auto 10|]). lia.
Qed.

Lemma getCardinalDirection_below (a : Q) :
  a < -360 -> getCardinalDirection a = "N".
Proof.
  intros H. unfold getCardinalDirection.
  rewrite find_inRange_low; [reflexivity|].
  unfold normalizedAngle.
  destruct (Qrem_360 (a + 360)) as (k & E & _ & P).
  destruct P as [L U]; lra.
Qed.

Lemma getCardinalDirection_in_LABELS (a : Q) :
  In (getCardinalDirection a) LABELS.
Proof.
  destruct (Qlt_le_dec a (-360)) as [H|H].
  - rewrite getCardinalDirection_below by assumption. simpl. auto.
  - rewrite getCardinalDirection_sector by assumption.
    apply nth_label_in, sector_lt.
Qed.

(** X1.  Whatever rational angle it is given, [getCardinalDirection]
    returns one of the eight labels of the table: the empty label of
    line 32 is not returned.  Below -360 the label is N whatever the
    direction. *)
Theorem classify_every_rational (a : Q) :
  In (getCardinalDirection a) LABELS /\
  getCardinalDirection a <> "" /\
  (a < -360 -> getCardinalDirection a = "N").
Proof.
  pose proof (getCardinalDirection_in_LABELS a) as I.
  split; [exact I|]. split; [|apply getCardinalDirection_below].
  intros E. rewrite E in I. simpl in I.
  repeat (destruct I as [I|I]; [discriminate|]). contradiction.
Qed.

Lemma classify_every_rational_witness :
  In (getCardinalDirection (-450)) LABELS /\
  getCardinalDirection (-450) <> "" /\
  (-450 < -360 -> getCardinalDirection (-450) = "N").
Proof.
  exact (classify_every_rational (-450)).
Defined.

Lemma normalizedAngle_shift (a : Q) (n : nat) :
  -360 <= a ->
  normalizedAngle (a + 360 * inject_Z (Z.of_nat n)) == normalizedAngle a.
Proof.
  intros Ha. unfold normalizedAngle.
  destruct (Qrem_360 (a + 360)) as (k & E & P & _).
  destruct P as [L U]; [lra|].
  assert (0 <= inject_Z (Z.of_nat n)) as Hn
    by (change 0 with (inject_Z 0); rewrite <- Zle_Qle; lia).
  apply (Qrem_360_nonneg _ _ (k + Z.of_nat n)); [nra| |lra|lra].
  rewrite E, inject_Z_plus. lra.
Qed.

(** X2.  Whole turns added to an angle not below -360 do not change its
    label; a stored angle between -360 and 0 has the label of the angle
    one turn higher. *)
Theorem classify_periodic (a : Q) (n : nat) :
  -360 <= a ->
  getCardinalDirection (a + 360 * inject_Z (Z.of_nat n))
  = getCardinalDirection a.
Proof.
  intros Ha. unfold getCardinalDirection.
  rewrite (find_inRange_compat _ _ _ (normalizedAngle_shift a n Ha)).
  reflexivity.
Qed.

Lemma classify_periodic_witness :
  getCardinalDirection (-3 + 360 * inject_Z (Z.of_nat 1))
  = getCardinalDirection (-3).
Proof.
  apply (classify_periodic (-3) 1). lra.
Defined.

(** A circular distance below [t] means a difference below [t] up to one
    turn. *)
Lemma circularDistance_near (a b t : Q) :
  0 <= a -> a < 360 -> 0 <= b -> b < 360 ->
  circularDistance a b < t ->
  (- t < a - b /\ a - b < t) \/ 360 - t < a - b \/ a - b < t - 360.
Proof.
  intros La Ua Lb Ub. unfold circularDistance.
  destruct (specNormalize_spec (a - b)) as (j & E & L & U).
  set (n := specNormalize (a - b)) in *. clearbody n.
  assert (-2 < inject_Z j) as J1 by lra.
  assert (inject_Z j < 1) as J2 by lra.
  change (-2) with (inject_Z (-2)) in J1. change 1 with (inject_Z 1) in J2.
  rewrite <- Zlt_Qlt in J1, J2.
  assert (j = (-1)%Z \/ j = 0%Z) as [->| ->] by lia;
    [change (inject_Z (-1)) with (-1) in E|change (inject_Z 0) with 0 in E];
    destruct (Q.min_spec n (360 - n)) as [[M ->]|[M ->]]; intros H; lra.
Qed.

Lemma bearing_in_range (k : nat) :
  (k < 8)%nat ->
  0 <= 45 * inject_Z (Z.of_nat k) /\ 45 * inject_Z (Z.of_nat k) < 360.
Proof.
  intros B. do 8 (destruct k as [|k]; [split; vm_compute; congruence|]). lia.
Qed.

(** X3.  Each label covers the 45 degrees centred on its bearing: an
    angle of [0,360) less than 22.5 degrees away, along the circle, from
    the bearing [45 * k] has the label of row [k]. *)
Theorem classify_nearest_bearing (a : Q) (k : nat) :
  0 <= a -> a < 360 -> (k < 8)%nat ->
  circularDistance a (45 * inject_Z (Z.of_nat k)) < 45 # 2 ->
  getCardinalDirection a
  = label (nth k CARDINAL_DIRECTIONS defaultDirection).
Proof.
  intros L U B D.
  destruct (bearing_in_range k B) as [Lb Ub].
  pose proof (circularDistance_near _ _ _ L U Lb Ub D) as C. clear D Lb Ub.
  rewrite getCardinalDirection_sector by lra.
  pose proof (normalizedAngle_id a L U) as N.
  do 8 (destruct k as [|k];
        [ match type of C with
          | context [inject_Z ?z] =>
              let v := eval vm_compute in (inject_Z z) in
              change (inject_Z z) with v in C
          end;
          unfold sector, Qltb;
          destruct C as [C|[C|C]]; try (exfalso; lra);
          settle_comparisons; reflexivity|]).
  lia.
Qed.

Lemma classify_nearest_bearing_witness :
  getCardinalDirection 350
  = label (nth 0 CARDINAL_DIRECTIONS defaultDirection).
Proof.
  apply (classify_nearest_bearing 350 0); try lra; try lia.
  vm_compute. reflexivity.
Defined.

(** ** Colours and the rendered values *)

(** X4.  [getDirectionColor] returns the colour of the row for each of
    the eight labels, and white for every other string, the empty label
    included. *)
Theorem getDirectionColor_lookup :
  (forall d : Direction, In d CARDINAL_DIRECTIONS ->
     getDirectionColor (label d) = color d) /\
  (forall s : string, ~ In s LABELS -> getDirectionColor s = "#FFFFFF").
Proof.
  split.
  - intros d Hd. simpl in Hd.
    repeat (destruct Hd as [<-|Hd]; [reflexivity|]). contradiction.
  - intros s H. unfold getDirectionColor.
    cbv [CARDINAL_DIRECTIONS find label].
    repeat match goal with
           | |- context [String.eqb ?l s] =>
               destruct (String.eqb_spec l s) as [E|_];
               [exfalso; apply H; rewrite <- E; simpl; auto 10|]
           end.
    reflexivity.
Qed.

Lemma getDirectionColor_lookup_witness :
  getDirectionColor "" = "#FFFFFF".
Proof.
  apply (proj2 getDirectionColor_lookup "").
  simpl. intros H.
  repeat (destruct H as [H|H]; [discriminate|]). contradiction.
Defined.

(** X5.  The colour of the direction text is white exactly when the
    label of the angle is not one of N, E, S, W. *)
Theorem directionColor_white_iff_diagonal (a : Q) :
  directionColor (render a) = "#FFFFFF"
  <-> includes PRIMARY_DIRECTIONS (getCardinalDirection a) = false.
Proof.
  unfold render. cbn [directionColor].
  pose proof (getCardinalDirection_in_LABELS a) as I.
  revert I. generalize (getCardinalDirection a). intros s I.
  simpl in I.
  repeat (destruct I as [<-|I]; [vm_compute; split; congruence|]).
  contradiction.
Qed.

(** X8.  The four letters N, E, S, W are always drawn, in this order;
    a letter has opacity 1 and size 28 when it is the current label and
    opacity 0.7 and size 24 otherwise, so exactly one letter is
    emphasised when the label is primary and none when it is diagonal. *)
Theorem cardinalPoints_emphasis (currentDirection : string) :
  map pointText (cardinalPoints currentDirection) = PRIMARY_DIRECTIONS /\
  (forall p : CardinalPoint, In p (cardinalPoints currentDirection) ->
     (pointText p = currentDirection ->
        opacity p = 1 /\ fontSize p = 28%Z) /\
     (pointText p <> currentDirection ->
        opacity p = 7 # 10 /\ fontSize p = 24%Z)) /\
  List.length (filter (fun p => String.eqb (pointText p) currentDirection)
                      (cardinalPoints currentDirection))
  = (if includes PRIMARY_DIRECTIONS currentDirection then 1 else 0)%nat.
Proof.
  split; [reflexivity|]. split.
  - intros p Hp. unfold cardinalPoints in Hp. apply in_map_iff in Hp.
    destruct Hp as (dir & <- & _). cbn [pointText opacity fontSize].
    destruct (String.eqb_spec currentDirection dir) as [E|E]; split;
      intros H; try (split; reflexivity); congruence.
  - unfold cardinalPoints, includes, PRIMARY_DIRECTIONS.
    cbn [map filter existsb pointText].
    destruct (String.eqb_spec currentDirection "N") as [->|NN];
      [reflexivity|].
    destruct (String.eqb_spec currentDirection "E") as [->|NE];
      [reflexivity|].
    destruct (String.eqb_spec currentDirection "S") as [->|NS];
      [reflexivity|].
    destruct (String.eqb_spec currentDirection "W") as [->|NW];
      [reflexivity|].
    rewrite !(String.eqb_sym _ currentDirection).
    repeat match goal with
           | |- context [String.eqb currentDirection ?l] =>
               destruct (String.eqb_spec currentDirection l);
               [contradiction|]
           end.
    reflexivity.
Qed.

Lemma cardinalPoints_emphasis_witness :
  opacity (mkCardinalPoint "E" "#4CAF50" 1 28) = 1 /\
  fontSize (mkCardinalPoint "E" "#4CAF50" 1 28) = 28%Z.
Proof.
  apply (proj1 (proj2 (cardinalPoints_emphasis "E"))
               (mkCardinalPoint "E" "#4CAF50" 1 28)).
  - simpl. auto.
  - reflexivity.
Defined.

(** ** The displayed number *)

Lemma mathRound_near (x : Q) :
  x - (1 # 2) < inject_Z (mathRound x) /\ inject_Z (mathRound x) <= x + (1 # 2).
Proof.
  unfold mathRound.
  pose proof (Qfloor_le (x + (1 # 2))) as L.
  pose proof (Qlt_floor (x + (1 # 2))) as U.
  rewrite inject_Z_plus in U. change (inject_Z 1) with 1 in U.
  split; lra.
Qed.

Lemma run_angle_range (thetas : list Q) :
  -360 < angle (fst (run initial thetas)) /\
  angle (fst (run initial thetas)) < 360.
Proof.
  assert (I : -360 < angle initial /\ angle initial < 360)
    by (split; reflexivity).
  revert I. generalize initial.
  induction thetas as [|theta rest IH]; intros c I.
  - exact I.
  - rewrite run_cons. cbn [fst]. apply IH, deliver_range, I.
Qed.

(** X6.  For an angle not below -360 the displayed number is the
    normalized angle rounded to the nearest integer, ties upwards, and
    lies between 0 and 360, both included; so does the number displayed
    after any stream of samples. *)
Theorem roundedAngle_range :
  (forall a : Q, -360 <= a ->
     (0 <= roundedAngle a <= 360)%Z /\
     normalizedAngle a - (1 # 2) < inject_Z (roundedAngle a) /\
     inject_Z (roundedAngle a) <= normalizedAngle a + (1 # 2)) /\
  (forall thetas : list Q,
     (0 <= angleText (render (angle (fst (run initial thetas)))) <= 360)%Z).
Proof.
  assert (G : forall a : Q, -360 <= a ->
     (0 <= roundedAngle a <= 360)%Z /\
     normalizedAngle a - (1 # 2) < inject_Z (roundedAngle a) /\
     inject_Z (roundedAngle a) <= normalizedAngle a + (1 # 2)).
  { intros a Ha.
    destruct (normalizedAngle_range a Ha) as [L U].
    unfold roundedAngle. fold (normalizedAngle a).
    destruct (mathRound_near (normalizedAngle a)) as [N1 N2].
    split; [|split; assumption].
    assert (inject_Z (-1) < inject_Z (mathRound (normalizedAngle a))) as B1
      by (change (inject_Z (-1)) with (-1); lra).
    assert (inject_Z (mathRound (normalizedAngle a)) < inject_Z 361) as B2
      by (change (inject_Z 361) with 361; lra).
    rewrite <- Zlt_Qlt in B1, B2. lia. }
  split; [exact G|].
  intros thetas. unfold render. cbn [angleText].
  apply G. destruct (run_angle_range thetas). lra.
Qed.

Lemma roundedAngle_range_witness :
  (0 <= roundedAngle (-3) <= 360)%Z /\
  normalizedAngle (-3) - (1 # 2) < inject_Z (roundedAngle (-3)) /\
  inject_Z (roundedAngle (-3)) <= normalizedAngle (-3) + (1 # 2).
Proof.
  apply (proj1 roundedAngle_range (-3)). lra.
Defined.

(** X7.  The display reads 360, not 0, for the last half degree before
    north: for an angle not below -360 the displayed number is 360
    exactly when the normalized angle is at least 359.5, and the label
    shown with it is N. *)
Theorem roundedAngle_shows_360 (a : Q) :
  -360 <= a ->
  (roundedAngle a = 360%Z <-> 719 # 2 <= normalizedAngle a) /\
  (roundedAngle a = 360%Z -> getCardinalDirection a = "N").
Proof.
  intros Ha.
  destruct (normalizedAngle_range a Ha) as [L U].
  assert (R : roundedAngle a = mathRound (normalizedAngle a)) by reflexivity.
  destruct (mathRound_near (normalizedAngle a)) as [N1 N2].
  assert (I : roundedAngle a = 360%Z <-> 719 # 2 <= normalizedAngle a).
  { rewrite R. split.
    - intros E. rewrite E in N2. change (inject_Z 360) with 360 in N2. lra.
    - intros H.
      assert (inject_Z 359 < inject_Z (mathRound (normalizedAngle a))) as B1
        by (change (inject_Z 359) with 359; lra).
      assert (inject_Z (mathRound (normalizedAngle a)) < inject_Z 361) as B2
        by (change (inject_Z 361) with 361; lra).
      rewrite <- Zlt_Qlt in B1, B2. lia. }
  split; [exact I|].
  intros E. apply I in E.
  rewrite getCardinalDirection_sector by assumption.
  unfold sector, Qltb. settle_comparisons. reflexivity.
Qed.

Lemma roundedAngle_shows_360_witness :
  (roundedAngle (-3 # 10) = 360%Z <-> 719 # 2 <= normalizedAngle (-3 # 10)) /\
  (roundedAngle (-3 # 10) = 360%Z -> getCardinalDirection (-3 # 10) = "N").
Proof.
  apply (roundedAngle_shows_360 (-3 # 10)). lra.
Defined.

(** ** Steady readings *)

(** Angles whose difference is [t] up to whole turns, with [t] at most
    half a turn, are [|t|] apart along the circle. *)
Lemma circularDistance_congruent (a b t : Q) (k : Z) :
  a - b == t + 360 * inject_Z k -> Qabs t <= 180 ->
  circularDistance a b == Qabs t.
Proof.
  intros E Ht. unfold circularDistance.
  destruct (specNormalize_spec (a - b)) as (k' & E' & L & U).
  set (n := specNormalize (a - b)) in *. clearbody n.
  destruct (Q.min_spec n (360 - n)) as [[M ->]|[M ->]];
  destruct (Qabs_cases t) as [[S Ha]|[S Ha]]; rewrite Ha in *.
  - apply (congruent_close _ _ (k - k')); [|lra|lra].
    rewrite inject_Z_minus, E', E. lra.
  - assert (n == t + 360); [|lra].
    apply (congruent_close _ _ (k - k' - 1)); [|lra|lra].
    rewrite !inject_Z_minus, E', E. change (inject_Z 1) with 1. lra.
  - assert (n == t); [|lra].
    apply (congruent_close _ _ (k - k')); [|lra|lra].
    rewrite inject_Z_minus, E', E. lra.
  - assert (n == t + 360); [|lra].
    apply (congruent_close _ _ (k - k' - 1)); [|lra|lra].
    rewrite !inject_Z_minus, E', E. change (inject_Z 1) with 1. lra.
Qed.

(** The corrected delta is the delta up to one turn. *)
Lemma correctDelta_congruent (delta : Q) :
  exists j : Z, correctDelta delta == delta + 360 * inject_Z j.
Proof.
  destruct (correctDelta_cases delta) as [(A & ->)|[(A & B & ->)|(A & B & ->)]].
  - exists 0%Z. change (inject_Z 0) with 0. lra.
  - exists (-1)%Z. change (inject_Z (-1)) with (-1). lra.
  - exists 1%Z. change (inject_Z 1) with 1. lra.
Qed.

(** One correction by 360 is enough for a delta of at most a turn and a
    half. *)
Lemma correctDelta_short_wide (delta : Q) :
  -540 <= delta -> delta <= 540 -> Qabs (correctDelta delta) <= 180.
Proof.
  intros L U.
  destruct (correctDelta_cases delta) as [(A & ->)|[(A & B & ->)|(A & B & ->)]].
  - assumption.
  - destruct (Qabs_cases delta) as [[? Hx]|[? Hx]];
    destruct (Qabs_cases (delta - 360)) as [[? Hy]|[? Hy]]; lra.
  - destruct (Qabs_cases delta) as [[? Hx]|[? Hx]];
    destruct (Qabs_cases (delta + 360)) as [[? Hy]|[? Hy]]; lra.
Qed.

Lemma steady_distance_before (p r : Q) :
  -540 <= r - p -> r - p <= 540 ->
  circularDistance p r == Qabs (correctDelta (r - p)).
Proof.
  intros L U.
  pose proof (correctDelta_short_wide _ L U) as B.
  destruct (correctDelta_congruent (r - p)) as (j & E).
  rewrite <- Qabs_opp.
  apply (circularDistance_congruent _ _ _ j); [lra|].
  rewrite Qabs_opp. exact B.
Qed.

Lemma steady_distance_after (p r : Q) :
  -540 <= r - p -> r - p <= 540 ->
  circularDistance (newAngleOf p r) r
  == (7 # 10) * Qabs (correctDelta (r - p)).
Proof.
  intros L U.
  pose proof (correctDelta_short_wide _ L U) as B.
  destruct (correctDelta_congruent (r - p)) as (j & E).
  unfold newAngleOf, smooth, dampingFactor.
  set (c := correctDelta (r - p)) in *. clearbody c.
  destruct (Qrem_360 (p + c * (3 # 10))) as (k & Ek & _).
  assert (A : Qabs (- ((7 # 10) * c)) == (7 # 10) * Qabs c).
  { rewrite Qabs_opp, Qabs_Qmult. reflexivity. }
  rewrite <- A.
  apply (circularDistance_congruent _ _ _ (j - k)).
  - rewrite inject_Z_minus, Ek. lra.
  - rewrite A. lra.
Qed.

(** X10.  When the raw heading is within a turn and a half of the stored
    angle (always the case for a stored angle from -180 upwards), one
    sample leaves seven tenths of the circular distance to the raw
    heading. *)
Theorem steady_step_contracts (p r : Q) :
  -540 <= r - p -> r - p <= 540 ->
  circularDistance (newAngleOf p r) r == (7 # 10) * circularDistance p r.
Proof.
  intros L U.
  rewrite steady_distance_after, steady_distance_before by assumption.
  reflexivity.
Qed.

Lemma steady_step_contracts_witness :
  circularDistance (newAngleOf 350 10) 10 == (7 # 10) * circularDistance 350 10.
Proof.
  apply (steady_step_contracts 350 10); lra.
Defined.

Lemma wrapHeading_range (theta : Q) :
  -180 < theta -> theta <= 180 ->
  0 <= wrapHeading theta /\ wrapHeading theta < 360.
Proof.
  intros L U. unfold wrapHeading, Qgeb.
  destruct (Qle_bool 0 theta) eqn:E.
  - apply Qle_bool_iff in E. lra.
  - assert (~ 0 <= theta) by (rewrite <- Qle_bool_iff, E; discriminate). lra.
Qed.

(** Under a steady raw heading the stored angle stays within a turn and
    a half below it. *)
Lemma steady_step_keeps (p r : Q) :
  0 <= r -> r < 360 -> -360 < p -> p < 360 -> r - p <= 540 ->
  -360 < newAngleOf p r /\ newAngleOf p r < 360 /\ r - newAngleOf p r <= 540.
Proof.
  intros Lr Ur Lp Up W.
  assert (-540 <= r - p) as W' by lra.
  pose proof (correctDelta_short_wide _ W' W) as B.
  unfold newAngleOf, smooth, dampingFactor.
  destruct (correctDelta_cases (r - p)) as [(A & E)|[(A & C & E)|(A & C & E)]];
    rewrite E in *; clear E.
  - set (x := p + (r - p) * (3 # 10)).
    destruct (Qrem_360_range x) as [R1 R2].
    split; [exact R1|]. split; [exact R2|].
    destruct (Qabs_cases (r - p)) as [[? Hx]|[? Hx]]; rewrite Hx in *.
    + destruct (Qlt_le_dec x 0) as [N|N].
      * rewrite (Qrem_360_small x) by (unfold x; lra). unfold x. lra.
      * destruct (Qrem_360 x) as (k & _ & P & _). destruct (P N). lra.
    + destruct (Qrem_360 x) as (k & _ & P & _).
      destruct P; [unfold x; lra|]. lra.
  - set (x := p + (r - p - 360) * (3 # 10)).
    destruct (Qrem_360_range x) as [R1 R2].
    split; [exact R1|]. split; [exact R2|].
    destruct (Qlt_le_dec x 0) as [N|N].
    + destruct (Qlt_le_dec (-360) x) as [M|M].
      * rewrite (Qrem_360_small x) by lra. unfold x. lra.
      * rewrite (Qrem_360_nonpos x (x + 360) (-1));
          change (inject_Z (-1)) with (-1); unfold x in *; lra.
    + destruct (Qrem_360 x) as (k & _ & P & _). destruct (P N). lra.
  - set (x := p + (r - p + 360) * (3 # 10)).
    destruct (Qrem_360_range x) as [R1 R2].
    split; [exact R1|]. split; [exact R2|].
    destruct (Qabs_cases (r - p)) as [[? Hx]|[? Hx]]; rewrite Hx in *;
      [lra|].
    destruct (Qrem_360 x) as (k & _ & P & _).
    destruct P; [unfold x; lra|]. lra.
Qed.

Lemma repeatSmooth_compat (n : nat) (p p' r d : Q) :
  p == p' -> repeatSmooth n p r d == repeatSmooth n p' r d.
Proof.
  revert p p'. induction n as [|n IH]; intros p p' E; simpl.
  - exact E.
  - apply IH, smooth_compat; [exact E|reflexivity|reflexivity].
Qed.

Lemma deliver_angle (c : Closure) (theta : Q) :
  angle (fst (deliver c theta)) == newAngleOf (angle c) (wrapHeading theta).
Proof.
  rewrite deliver_fst.
  destruct (Qeq_bool (newAngle (listener c theta)) (angle c)) eqn:Same;
    cbn [mountEffect angle].
  - apply Qeq_bool_iff in Same. unfold newAngleOf.
    rewrite <- listener_newAngle. symmetry. exact Same.
  - rewrite listener_newAngle. reflexivity.
Qed.

Lemma run_repeat_angle (n : nat) (c : Closure) (theta : Q) :
  angle (fst (run c (repeat theta n)))
  == repeatSmooth n (angle c) (wrapHeading theta) dampingFactor.
Proof.
  revert c. induction n as [|n IH]; intros c.
  - reflexivity.
  - cbn [repeat]. rewrite run_cons. cbn [fst repeatSmooth].
    rewrite IH. apply repeatSmooth_compat, deliver_angle.
Qed.

Lemma circularDistance_compat (a a' b : Q) :
  a == a' -> circularDistance a b == circularDistance a' b.
Proof.
  intros E. unfold circularDistance.
  destruct (specNormalize_spec (a - b)) as (k & Ek & L & U).
  destruct (specNormalize_spec (a' - b)) as (k' & Ek' & L' & U').
  assert (N : specNormalize (a - b) == specNormalize (a' - b)).
  { apply (congruent_close _ _ (k' - k)); [|lra|lra].
    rewrite inject_Z_minus, Ek, Ek'. lra. }
  set (n := specNormalize (a - b)) in *. clearbody n.
  set (n' := specNormalize (a' - b)) in *. clearbody n'.
  destruct (Q.min_spec n (360 - n)) as [[M ->]|[M ->]];
  destruct (Q.min_spec n' (360 - n')) as [[M' ->]|[M' ->]]; lra.
Qed.

Lemma decay_succ (n : nat) :
  (7 # 10) ^ Z.of_nat (S n) == (7 # 10) ^ Z.of_nat n * (7 # 10).
Proof.
  rewrite Nat2Z.inj_succ, <- Z.add_1_r.
  rewrite Qpower_plus by discriminate. reflexivity.
Qed.

Lemma steady_repeat (n : nat) (p r : Q) :
  0 <= r -> r < 360 -> -360 < p -> p < 360 -> r - p <= 540 ->
  circularDistance (repeatSmooth n p r dampingFactor) r
  == (7 # 10) ^ Z.of_nat n * circularDistance p r.
Proof.
  intros Lr Ur. revert p.
  induction n as [|n IH]; intros p Lp Up W.
  - cbn [repeatSmooth]. change ((7 # 10) ^ Z.of_nat 0) with 1. lra.
  - cbn [repeatSmooth]. fold (newAngleOf p r).
    destruct (steady_step_keeps p r Lr Ur Lp Up W) as (L' & U' & W').
    rewrite (IH _ L' U' W'), decay_succ.
    rewrite steady_distance_after, steady_distance_before by lra. lra.
Qed.

(** X11.  Under a steady reading the stored angle converges to the raw
    heading: from a closure whose angle lies between -360 and 360 and at
    most 540 below the raw heading, as in the initial state, the circular
    distance to the raw heading after [n] samples with the same reading
    is [0.7 ^ n] times the distance at the start. *)
Theorem steady_reading_converges (c : Closure) (theta : Q) (n : nat) :
  -180 < theta -> theta <= 180 ->
  -360 < angle c -> angle c < 360 -> wrapHeading theta - angle c <= 540 ->
  circularDistance (angle (fst (run c (repeat theta n)))) (wrapHeading theta)
  == (7 # 10) ^ Z.of_nat n * circularDistance (angle c) (wrapHeading theta).
Proof.
  intros L U Lp Up W.
  destruct (wrapHeading_range theta L U) as [Lr Ur].
  rewrite (circularDistance_compat _ _ _ (run_repeat_angle n c theta)).
  apply steady_repeat; assumption.
Qed.

Lemma steady_reading_converges_witness :
  circularDistance (angle (fst (run initial (repeat 90 3)))) (wrapHeading 90)
  == (7 # 10) ^ Z.of_nat 3 * circularDistance (angle initial) (wrapHeading 90).
Proof.
  apply (steady_reading_converges initial 90 3); try lra.
  - reflexivity.
  - reflexivity.
  - vm_compute. discriminate.
Defined.

(** ** Steps from any stored angle *)

Lemma correctDelta_wide (delta : Q) :
  -360 < delta -> delta < 720 ->
  -180 <= correctDelta delta /\ correctDelta delta < 360.
Proof.
  intros L U.
  destruct (correctDelta_cases delta) as [(A & ->)|[(A & B & ->)|(A & B & ->)]];
    destruct (Qabs_cases delta) as [[? Hx]|[? Hx]]; lra.
Qed.

(** X12.  After any stream of samples, one more sample with a reading
    in (-180,180] moves the stored angle by less than 108 degrees along
    the circle, and by exactly 0.3 times the corrected delta. *)
Theorem step_bound_every_state (thetas : list Q) (theta : Q) :
  -180 < theta -> theta <= 180 ->
  let c := fst (run initial thetas) in
  let delta := correctDelta (wrapHeading theta - angle c) in
  circularDistance (newAngle (listener c theta)) (angle c)
    == (3 # 10) * Qabs delta /\
  circularDistance (newAngle (listener c theta)) (angle c) < 108.
Proof.
  intros L U c delta.
  destruct (wrapHeading_range theta L U) as [Lr Ur].
  destruct (run_angle_range thetas) as [Lp Up]. fold c in Lp, Up.
  assert (-180 <= delta /\ delta < 360) as [Ld Ud]
    by (apply correctDelta_wide; lra).
  assert (A : Qabs (delta * (3 # 10)) == (3 # 10) * Qabs delta).
  { rewrite Qabs_Qmult. change (Qabs (3 # 10)) with (3 # 10). lra. }
  assert (B : Qabs delta < 360)
    by (destruct (Qabs_cases delta) as [[? Hx]|[? Hx]]; lra).
  assert (E : circularDistance (newAngle (listener c theta)) (angle c)
              == (3 # 10) * Qabs delta).
  { rewrite listener_newAngle. unfold smooth, dampingFactor. fold delta.
    rewrite circularDistance_step; [exact A|]. lra. }
  split; [exact E|]. lra.
Qed.

Lemma step_bound_every_state_witness :
  let c := fst (run initial [-179; 127; 73; 19]) in
  let delta := correctDelta (wrapHeading (-1) - angle c) in
  circularDistance (newAngle (listener c (-1))) (angle c)
    == (3 # 10) * Qabs delta /\
  circularDistance (newAngle (listener c (-1))) (angle c) < 108.
Proof.
  apply (step_bound_every_state [-179; 127; 73; 19] (-1)); lra.
Defined.

(** X13.  When the raw heading exceeds the stored angle by more than 540
    degrees (a stored angle below -180), lines 52-54 subtract one turn
    only: the corrected delta exceeds 180, the step is 0.3 times it,
    more than 54 degrees, although the raw heading is [720 - delta],
    less than 180 degrees, away along the circle. *)
Theorem long_arc_below_minus_180 (p r : Q) :
  -360 < p -> r < 360 -> 540 < r - p ->
  correctDelta (r - p) == r - p - 360 /\
  circularDistance (newAngleOf p r) p == (3 # 10) * (r - p - 360) /\
  54 < circularDistance (newAngleOf p r) p /\
  circularDistance p r == 720 - (r - p).
Proof.
  intros Lp Ur W.
  assert (C : correctDelta (r - p) == r - p - 360).
  { destruct (correctDelta_cases (r - p))
      as [(A & ->)|[(A & B & ->)|(A & B & ->)]];
      destruct (Qabs_cases (r - p)) as [[? Hx]|[? Hx]]; lra. }
  assert (S : circularDistance (newAngleOf p r) p == (3 # 10) * (r - p - 360)).
  { unfold newAngleOf, smooth, dampingFactor.
    rewrite circularDistance_step.
    - rewrite Qabs_pos by (rewrite C; lra). rewrite C. lra.
    - rewrite Qabs_pos by (rewrite C; lra). rewrite C. lra. }
  split; [exact C|]. split; [exact S|]. split; [lra|].
  assert (A : Qabs (r - p - 720) == 720 - (r - p))
    by (rewrite Qabs_neg by lra; lra).
  rewrite <- A, <- Qabs_opp.
  apply (circularDistance_congruent _ _ _ (-2)).
  - change (inject_Z (-2)) with (-2). lra.
  - rewrite Qabs_opp, A. lra.
Qed.

Lemma long_arc_below_minus_180_witness :
  correctDelta (359 - (-2152401 # 10000)) == 359 - (-2152401 # 10000) - 360 /\
  circularDistance (newAngleOf (-2152401 # 10000) 359) (-2152401 # 10000)
    == (3 # 10) * (359 - (-2152401 # 10000) - 360) /\
  54 < circularDistance (newAngleOf (-2152401 # 10000) 359) (-2152401 # 10000) /\
  circularDistance (-2152401 # 10000) 359 == 720 - (359 - (-2152401 # 10000)).
Proof.
  apply (long_arc_below_minus_180 (-2152401 # 10000) 359); lra.
Defined.

(** ** The haptic call on every stream *)

Lemma run_lastDirection (thetas : list Q) :
  lastDirection (fst (run initial thetas))
  = getCardinalDirection (angle (fst (run initial thetas))).
Proof.
  assert (I : lastDirection initial = getCardinalDirection (angle initial))
    by reflexivity.
  revert I. generalize initial.
  induction thetas as [|theta rest IH]; intros c I.
  - exact I.
  - rewrite run_cons. cbn [fst]. apply IH, deliver_lastDirection, I.
Qed.

Lemma includes_In (xs : list string) (s : string) :
  includes xs s = true <-> In s xs.
Proof.
  unfold includes. rewrite existsb_exists. split.
  - intros (x & Hx & E). apply String.eqb_eq in E. subst. exact Hx.
  - intros H. exists s. split; [exact H|apply String.eqb_refl].
Qed.

(** X9.  After any stream of samples, the next sample makes the haptic
    call exactly when the label of the new angle is one of N, E, S, W and
    differs from the label of the stored angle; it is not made for a
    diagonal label nor while the label stays the same. *)
Theorem haptic_iff_primary_entered (thetas : list Q) (theta : Q) :
  let c := fst (run initial thetas) in
  let r := listener c theta in
  fired r = true
  <-> In (newDirection r) PRIMARY_DIRECTIONS /\
      newDirection r <> getCardinalDirection (angle c).
Proof.
  intros c r. unfold r.
  rewrite listener_fired, andb_true_iff, negb_true_iff, includes_In.
  unfold c at 3. rewrite run_lastDirection. fold c.
  rewrite String.eqb_neq. reflexivity.
Qed.

(** ** The empty label *)

Lemma getCardinalDirection_nonempty (a : Q) : getCardinalDirection a <> "".
Proof.
  pose proof (getCardinalDirection_in_LABELS a) as I.
  intros E. rewrite E in I. simpl in I.
  repeat (destruct I as [I|I]; [discriminate|]). contradiction.
Qed.

(** ** The raw heading of particular samples *)

Section RawHeadingSamples.

Local Open Scope R_scope.

Lemma atan2_scale (k x y : R) :
  0 < k -> RawHeading.atan2 (k * y) (k * x) = RawHeading.atan2 y x.
Proof.
  intros Hk. unfold RawHeading.atan2.
  assert (Q : forall u, u <> 0 -> k * y / (k * u) = y / u)
    by (intros u Hu; field; lra).
  destruct (Rlt_dec 0 x) as [Hx|Hx].
  - destruct (Rlt_dec 0 (k * x)) as [_|N]; [|exfalso; nra].
    rewrite Q by lra. reflexivity.
  - destruct (Rlt_dec 0 (k * x)) as [N|_]; [exfalso; nra|].
    destruct (Rlt_dec x 0) as [Hx'|Hx'].
    + destruct (Rlt_dec (k * x) 0) as [_|N]; [|exfalso; nra].
      rewrite Q by lra.
      destruct (Rle_dec 0 y) as [Hy|Hy];
        destruct (Rle_dec 0 (k * y)) as [Hy'|Hy'];
        try reflexivity; exfalso; nra.
    + destruct (Rlt_dec (k * x) 0) as [N|_]; [exfalso; nra|].
      destruct (Rlt_dec 0 y) as [Hy|Hy].
      * destruct (Rlt_dec 0 (k * y)) as [_|N]; [reflexivity|exfalso; nra].
      * destruct (Rlt_dec 0 (k * y)) as [N|_]; [exfalso; nra|].
        destruct (Rlt_dec y 0) as [Hy'|Hy'].
        -- destruct (Rlt_dec (k * y) 0) as [_|N]; [reflexivity|exfalso; nra].
        -- destruct (Rlt_dec (k * y) 0) as [N|_]; [exfalso; nra|reflexivity].
Qed.

(** X15.  The raw heading depends on the direction of the sample only:
    scaling both components by the same positive factor leaves it
    unchanged. *)
Theorem heading_scale_invariant (k x y : R) :
  0 < k -> RawHeading.heading (k * x) (k * y) = RawHeading.heading x y.
Proof.
  intros Hk. unfold RawHeading.heading.
  rewrite atan2_scale by assumption. reflexivity.
Qed.

Lemma heading_scale_invariant_witness :
  RawHeading.heading (2 * 3) (2 * 4) = RawHeading.heading 3 4.
Proof.
  apply (heading_scale_invariant 2 3 4). lra.
Defined.

(** X16.  Samples on the axes give the four primary bearings: the
    positive x axis 0, the positive y axis 90, the negative x axis 180 and
    the negative y axis 270 degrees; the diagonal [x = y > 0] gives 45. *)
Theorem heading_on_axes (t : R) :
  0 < t ->
  RawHeading.heading t 0 = 0 /\
  RawHeading.heading 0 t = 90 /\
  RawHeading.heading (- t) 0 = 180 /\
  RawHeading.heading 0 (- t) = 270 /\
  RawHeading.heading t t = 45.
Proof.
  intros Ht. pose proof PI_RGT_0 as P.
  assert (Z0 : forall u, 0 / u = 0) by (intros u; unfold Rdiv; ring).
  unfold RawHeading.heading, RawHeading.atan2.
  repeat split.
  - destruct (Rlt_dec 0 t) as [_|N]; [|lra].
    rewrite Z0, atan_0, Rmult_0_l.
    destruct (Rle_dec 0 0); lra.
  - destruct (Rlt_dec 0 0) as [N|_]; [lra|].
    destruct (Rlt_dec 0 t) as [_|N]; [|lra].
    replace (PI / 2 * (180 / PI)) with 90 by (field; lra).
    destruct (Rle_dec 0 90); lra.
  - destruct (Rlt_dec 0 (- t)) as [N|_]; [lra|].
    destruct (Rlt_dec (- t) 0) as [_|N]; [|lra].
    destruct (Rle_dec 0 0) as [_|N]; [|lra].
    rewrite Z0, atan_0.
    replace ((0 + PI) * (180 / PI)) with 180 by (field; lra).
    destruct (Rle_dec 0 180); lra.
  - destruct (Rlt_dec 0 0) as [N|_]; [lra|].
    destruct (Rlt_dec 0 (- t)) as [N|_]; [lra|].
    destruct (Rlt_dec (- t) 0) as [_|N]; [|lra].
    replace (- (PI / 2) * (180 / PI)) with (-90) by (field; lra).
    destruct (Rle_dec 0 (-90)); lra.
  - destruct (Rlt_dec 0 t) as [_|N]; [|lra].
    replace (t / t) with 1 by (field; lra).
    rewrite atan_1.
    replace (PI / 4 * (180 / PI)) with 45 by (field; lra).
    destruct (Rle_dec 0 45); lra.
Qed.

Lemma heading_on_axes_witness :
  RawHeading.heading 1 0 = 0 /\
  RawHeading.heading 0 1 = 90 /\
  RawHeading.heading (- 1) 0 = 180 /\
  RawHeading.heading 0 (- 1) = 270 /\
  RawHeading.heading 1 1 = 45.
Proof.
  apply (heading_on_axes 1). lra.
Defined.

End RawHeadingSamples.

(** ** Steps from stored angles outside [0,360) *)








(** ** The raw heading at the origin *)

Section SignedZeroFacts.

Local Open Scope R_scope.

Lemma Q2R_const (z : Z) : Q2R (inject_Z z) = IZR z.
Proof.
  unfold Q2R, inject_Z. simpl. field.
Qed.

(** [Math.atan2] on signed zeros and reals lies in [-PI, PI]. *)
Lemma signed_atan2_range (y x : SignedZero.coord) :
  - PI <= SignedZero.atan2 y x /\ SignedZero.atan2 y x <= PI.
Proof.
  pose proof PI_RGT_0 as P.
  destruct y as [|ry]; cbn [SignedZero.atan2].
  - destruct (SignedZero.signbit x); lra.
  - destruct x as [|rx].
    + destruct (Rlt_dec 0 ry); [lra|]. destruct (Rlt_dec ry 0); lra.
    + destruct (atan2_range ry rx). lra.
Qed.

Lemma signed_heading_range (x y : SignedZero.coord) :
  0 <= SignedZero.heading x y /\ SignedZero.heading x y < 360.
Proof.
  pose proof PI_RGT_0 as P.
  unfold SignedZero.heading.
  destruct (signed_atan2_range y x) as [L U].
  set (a := SignedZero.atan2 y x) in *. clearbody a.
  assert (E : a * (180 / PI) * PI = a * 180) by (field; lra).
  set (h := a * (180 / PI)) in *. clearbody h.
  assert (-180 <= h <= 180) as [Lh Uh] by (split; nra).
  destruct (Rle_dec 0 h); lra.
Qed.

Lemma reading_plus_zero :
  readingOf (SignedZero.Real 0) (SignedZero.Real 0) 0.
Proof.
  unfold readingOf. cbn [SignedZero.atan2]. unfold RawHeading.atan2.
  destruct (Rlt_dec 0 0) as [H|_]; [lra|].
  change 0%Q with (inject_Z 0). rewrite Q2R_const. lra.
Qed.

Lemma reading_minus_zero :
  readingOf SignedZero.MinusZero (SignedZero.Real 0) 180.
Proof.
  pose proof PI_RGT_0 as P.
  unfold readingOf. cbn [SignedZero.atan2].
  destruct (Rlt_dec 0 0) as [H|_]; [lra|].
  change 180%Q with (inject_Z 180). rewrite Q2R_const. field. lra.
Qed.

(** Line 45 on a rational reading is line 45 on its real value. *)
Lemma wrapHeading_heading (x y : SignedZero.coord) (theta : Q) :
  readingOf x y theta ->
  Q2R (wrapHeading theta) = SignedZero.heading x y /\
  (0 <= wrapHeading theta)%Q /\ (wrapHeading theta < 360)%Q.
Proof.
  intros Rd. unfold readingOf in Rd.
  pose proof (signed_heading_range x y) as [Lh Uh].
  assert (E : Q2R (wrapHeading theta) = SignedZero.heading x y).
  { unfold SignedZero.heading, wrapHeading, Qgeb. rewrite <- Rd.
    destruct (Qle_bool 0 theta) eqn:B.
    - apply Qle_bool_iff, Qle_Rle in B.
      change 0%Q with (inject_Z 0) in B. rewrite Q2R_const in B.
      destruct (Rle_dec 0 (Q2R theta)); [reflexivity|lra].
    - assert (theta < 0)%Q as N
        by (apply Qnot_le_lt; rewrite <- Qle_bool_iff, B; discriminate).
      apply Qlt_Rlt in N.
      change 0%Q with (inject_Z 0) in N. rewrite Q2R_const in N.
      destruct (Rle_dec 0 (Q2R theta)); [lra|].
      rewrite Q2R_plus. change 360%Q with (inject_Z 360).
      rewrite Q2R_const. reflexivity. }
  split; [exact E|]. rewrite <- E in Lh, Uh. split.
  - apply Rle_Qle. change 0%Q with (inject_Z 0). rewrite Q2R_const. exact Lh.
  - apply Rlt_Qlt. change 360%Q with (inject_Z 360). rewrite Q2R_const.
    exact Uh.
Qed.

(** C9, as stated, fails: lines 44-45 have no case for the origin, and
    for the sample with [x = -0] and [y = +0] [Math.atan2] returns PI.
    The raw heading is 180, not 0, and the sample moves the initial
    angle 0 to 54, label NE. *)
Lemma origin_minus_zero_counterexample :
  SignedZero.heading SignedZero.MinusZero (SignedZero.Real 0) = 180 /\
  SignedZero.heading SignedZero.MinusZero (SignedZero.Real 0) <> 0 /\
  onSample initial SignedZero.MinusZero (SignedZero.Real 0)
           (deliver initial 180) /\
  (newAngle (snd (deliver initial 180)) == 54)%Q /\
  newDirection (snd (deliver initial 180)) = "NE".
Proof.
  pose proof PI_RGT_0 as P.
  assert (H : SignedZero.heading SignedZero.MinusZero (SignedZero.Real 0) = 180).
  { unfold SignedZero.heading. cbn [SignedZero.atan2].
    destruct (Rlt_dec 0 0) as [N|_]; [lra|].
    replace (PI * (180 / PI)) with 180 by (field; lra).
    destruct (Rle_dec 0 180); lra. }
  split; [exact H|]. split; [rewrite H; lra|].
  split; [constructor; exact reading_minus_zero|].
  split; vm_compute; reflexivity.
Qed.

(** C9, amended.  There is no fallback for the origin: the raw heading
    there is what [Math.atan2] gives for the zeros, 0 when [x] is [+0]
    and 180 when [x] is [-0].  Such a sample is processed like any other,
    as the reading 0 or 180 from whatever closure is mounted; every
    sample that is processed yields the reaction of the listener for its
    reading, whose wrapped value is the raw heading.  For every sample
    the raw heading lies in [0,360). *)
Theorem raw_heading_signed_zero :
  (SignedZero.heading (SignedZero.Real 0) (SignedZero.Real 0) = 0 /\
   SignedZero.heading (SignedZero.Real 0) SignedZero.MinusZero = 0 /\
   SignedZero.heading SignedZero.MinusZero (SignedZero.Real 0) = 180 /\
   SignedZero.heading SignedZero.MinusZero SignedZero.MinusZero = 180) /\
  (forall c : Closure,
     onSample c (SignedZero.Real 0) (SignedZero.Real 0) (deliver c 0) /\
     onSample c SignedZero.MinusZero (SignedZero.Real 0) (deliver c 180)) /\
  (forall (c : Closure) (x y : SignedZero.coord) (out : Closure * Reaction),
     onSample c x y out ->
     exists theta : Q,
       out = deliver c theta /\
       Q2R (wrapHeading theta) = SignedZero.heading x y /\
       newAngle (snd out)
       = smooth (angle c) (wrapHeading theta) dampingFactor) /\
  (forall x y : SignedZero.coord,
     0 <= SignedZero.heading x y /\ SignedZero.heading x y < 360).
Proof.
  pose proof PI_RGT_0 as P.
  split; [|split; [|split; [|exact signed_heading_range]]].
  - unfold SignedZero.heading. cbn [SignedZero.atan2 SignedZero.signbit].
    unfold RawHeading.atan2.
    destruct (Rlt_dec 0 0) as [N|_]; [lra|].
    rewrite Rmult_0_l.
    replace (PI * (180 / PI)) with 180 by (field; lra).
    replace (- PI * (180 / PI)) with (-180) by (field; lra).
    destruct (Rle_dec 0 0); [|lra].
    destruct (Rle_dec 0 180); [|lra].
    destruct (Rle_dec 0 (-180)); [lra|].
    repeat split; lra.
  - intros c. split; constructor.
    + exact reading_plus_zero.
    + exact reading_minus_zero.
  - intros c x y out H. destruct H as [theta Rd].
    exists theta. split; [reflexivity|].
    split; [apply (wrapHeading_heading x y theta Rd)|].
    change (snd (deliver c theta)) with (listener c theta).
    apply listener_newAngle.
Qed.

Lemma raw_heading_signed_zero_witness :
  exists theta : Q,
    deliver initial 180 = deliver initial theta /\
    Q2R (wrapHeading theta)
    = SignedZero.heading SignedZero.MinusZero (SignedZero.Real 0) /\
    newAngle (snd (deliver initial 180))
    = smooth (angle initial) (wrapHeading theta) dampingFactor.
Proof.
  apply (proj1 (proj2 (proj2 raw_heading_signed_zero))
               initial SignedZero.MinusZero (SignedZero.Real 0)
               (deliver initial 180)).
  constructor. exact reading_minus_zero.
Defined.

End SignedZeroFacts.

(** ** The empty label on every JavaScript number *)

Lemma extended_getCardinalDirection_Num (a : Q) :
  Extended.getCardinalDirection (Extended.Num a) = getCardinalDirection a.
Proof.
  reflexivity.
Qed.

(** X14.  On every JavaScript number the classifier returns the empty
    label exactly when the angle is not finite, that is NaN, Infinity or
    -Infinity; the colour looked up for the empty label is white. *)
Theorem empty_label_iff_not_finite (x : Extended.jsnum) :
  (Extended.getCardinalDirection x = "" <-> Extended.isFinite x = false) /\
  getDirectionColor "" = "#FFFFFF".
Proof.
  split; [|reflexivity]. destruct x as [a| | |].
  - rewrite extended_getCardinalDirection_Num. cbn [Extended.isFinite]. split.
    + intros E. exfalso. exact (getCardinalDirection_nonempty a E).
    + discriminate.
  - split; reflexivity.
  - split; reflexivity.
  - split; reflexivity.
Qed.
